(** * Verification of the async [retry] helper (src/index.ts)

    The helper re-runs a promise factory with exponential backoff, an
    optional per-attempt timeout and an observer callback.  It is embedded
    here as a state-passing function over a small model of the JavaScript
    run time: a millisecond clock, the table of scheduled timers, the count
    of factory invocations and the trace of observable calls.

    Numbers: [retries], [delayMs], [timeoutMs] and the clock are whole
    numbers ([Z]): a [retries] that is not one (1.5, [NaN], [Infinity]) and
    a fractional [delayMs] are outside this embedding, and the statements
    below are about whole-number options.  [factor] is an exact rational
    ([Q]), so that [Math.floor (delay * factor)] is [Qfloor].  The product
    of line 34 is a product of doubles: it is this exact one where no
    rounding happens, which is the case for whole numbers up to [2^53];
    the statements on the values of the delays are made there.  Timers
    are those of Node. *)

From Stdlib Require Import ZArith QArith Qround Qpower String List Bool Lia.
From Equations Require Import Equations.
Import ListNotations.

Local Open Scope string_scope.
Local Open Scope list_scope.
Local Open Scope Z_scope.

(** ** Values, promises, timers *)

(** What a JavaScript [throw] can carry ([err: any]).  An error object is
    represented by its [name] (the tag of its class) and its [message]. *)
Inductive jsval : Type :=
| JUndefined
| JNumber (n : Z)
| JString (s : string)
| JError (name message : string).

(** The kind/tag of a thrown value: the class name of an error object,
    the [typeof] of a primitive. *)
Definition kind (v : jsval) : string :=
  match v with
  | JUndefined => "undefined"
  | JNumber _ => "number"
  | JString _ => "string"
  | JError n _ => n
  end.

Definition message (v : jsval) : option string :=
  match v with
  | JError _ m => Some m
  | _ => None
  end.

(** [new Error('timeout')], line 23, and [new Error('retry failed')],
    line 39. *)
Definition timeout_error : jsval := JError "Error" "timeout".
Definition retry_failed : jsval := JError "Error" "retry failed".

Inductive settlement (T : Type) : Type :=
| Fulfilled (v : T)
| Rejected (e : jsval).
Arguments Fulfilled {T} v.
Arguments Rejected {T} e.

(** A promise is described by when and how it settles: [None] never
    settles, [Some (d, o)] settles as [o], [d] milliseconds after it was
    created (a negative [d] counts as 0). *)
Definition promise (T : Type) : Type := option (Z * settlement T).

Inductive timer_kind : Type :=
| Backoff   (* the timer of [sleep], line 20 *)
| Race.     (* the timer of [withTimeout], line 23 *)

Record timer : Type := mkTimer { tid : nat; tkind : timer_kind; due : Z }.

Inductive event : Type :=
| EvCall (n : nat)                          (* [fn()], n-th invocation, from 0 *)
| EvSetTimeout (k : timer_kind) (ms : Z)    (* [setTimeout(_, ms)] *)
| EvOnRetry (err : jsval) (attempt : Z).    (* [onRetry(err, attempt)] *)

Record state : Type := mkState {
  now : Z;                 (* clock, in ms *)
  timers : list timer;     (* timers scheduled and not yet fired *)
  next_tid : nat;          (* next timer handle *)
  calls : nat;             (* invocations of the factory so far *)
  trace : list event       (* observable calls, oldest first *)
}.

Definition init : state := mkState 0 [] 0 0 [].

(** ** The run time *)

(** The delay a timer really gets: Node sets a delay below 1 ms or above
    [2^31 - 1] ms to 1 ms. *)
Definition timer_delay (ms : Z) : Z :=
  if (1 <=? ms) && (ms <=? 2147483647) then ms else 1.

(** [setTimeout(cb, ms)]. *)
Definition setTimeout (k : timer_kind) (ms : Z) (s : state) : nat * state :=
  (next_tid s,
   mkState (now s)
           (timers s ++ [mkTimer (next_tid s) k (now s + timer_delay ms)])
           (S (next_tid s)) (calls s)
           (trace s ++ [EvSetTimeout k ms])).

(** The clock reaches [t]: the timers due before [t] have fired and left
    the table; one due at [t] itself is still armed. *)
Definition advance (t : Z) (s : state) : state :=
  mkState t (filter (fun tm => t <=? due tm) (timers s))
          (next_tid s) (calls s) (trace s).

(** The timer [id] fires, if a timer is named: it leaves the table. *)
Definition fired (id : option nat) (s : state) : state :=
  match id with
  | None => s
  | Some i =>
      mkState (now s) (filter (fun tm => negb (tid tm =? i)%nat) (timers s))
              (next_tid s) (calls s) (trace s)
  end.

(** [Promise.race([p, q])]: the one that settles first; on a tie the first
    of the array, whose reaction was registered first. *)
Definition race {T} (p q : promise T) : promise T :=
  match p, q with
  | None, _ => q
  | Some _, None => p
  | Some (dp, _), Some (dq, _) => if Z.max 0 dp <=? Z.max 0 dq then p else q
  end.

Inductive outcome (T : Type) : Type :=
| Fulfil (v : T)
| Reject (e : jsval)
| Pending.
Arguments Fulfil {T} v.
Arguments Reject {T} e.
Arguments Pending {T}.

(** The second promise of a race settles first: alone, or strictly before
    the first one. *)
Definition overtakes {T} (p q : promise T) : bool :=
  match p, q with
  | _, None => false
  | None, Some _ => true
  | Some (dp, _), Some (dq, _) => negb (Z.max 0 dp <=? Z.max 0 dq)
  end.

(** A promise together with the timer of [retry] whose firing settles it,
    when it is settled that way. *)
Definition tracked (T : Type) : Type := (promise T * option nat)%type.

(** [await p]: the clock moves to the instant [p] settles, where the timer
    behind [p], if any, has just fired; a promise that never settles
    leaves the caller suspended for good. *)
Definition await {T} (p : tracked T) (s : state) : outcome T * state :=
  match p with
  | (None, _) => (Pending, s)
  | (Some (d, Fulfilled v), id) =>
      (Fulfil v, fired id (advance (now s + Z.max 0 d) s))
  | (Some (d, Rejected e), id) =>
      (Reject e, fired id (advance (now s + Z.max 0 d) s))
  end.

(** ** The helpers of [retry] *)

(** Line 20: [sleep = ms => new Promise(res => setTimeout(res, ms))],
    awaited at line 33. *)
Definition sleep (ms : Z) (s : state) : state :=
  let '(id, s1) := setTimeout Backoff ms s in
  snd (await (Some (timer_delay ms, Fulfilled tt), Some id) s1).

(** Lines 21-24.  The promise returned is settled by the timer when the
    timer's promise is the first of the race to settle. *)
Definition withTimeout {T} (p : promise T) (ms : option Z) (s : state)
  : tracked T * state :=
  match ms with
  | None => ((p, None), s)
  | Some ms =>
      let '(id, s1) := setTimeout Race ms s in
      let t := Some (timer_delay ms, Rejected timeout_error) in
      ((race p t, if overtakes p t then Some id else None), s1)
  end.

(** How a call of [retry] ends. *)
Inductive exit (T : Type) : Type :=
| Returned (v : T)          (* line 29: [return await ...] *)
| Rethrown (e : jsval)      (* line 31: [throw err] *)
| CallbackThrew (e : jsval) (* line 32: [onRetry] threw, nothing catches it *)
| Fallback                  (* line 39: [throw new Error('retry failed')] *)
| Hung.                     (* line 29: the awaited promise never settles *)
Arguments Returned {T} v.
Arguments Rethrown {T} e.
Arguments CallbackThrew {T} e.
Arguments Fallback {T}.
Arguments Hung {T}.

(** What the caller of [retry] observes of the returned promise. *)
Definition completion {T} (x : exit T) : promise T :=
  match x with
  | Returned v => Some (0, Fulfilled v)
  | Rethrown e => Some (0, Rejected e)
  | CallbackThrew e => Some (0, Rejected e)
  | Fallback => Some (0, Rejected retry_failed)
  | Hung => None
  end.

(** The observer: [None] when it returns, [Some x] when it throws [x]. *)
Definition callback : Type := jsval -> Z -> option jsval.

Section Loop.
Context {T : Type}.
(** [fn i] is the promise made by the [i]-th invocation of the factory, in
    the run at hand. *)
Variable fn : nat -> promise T.
Variables (retries : Z) (factor : Q).
Variable onRetry : option callback.
Variable timeoutMs : option Z.

(** [fn()] at line 29. *)
Definition call_fn (s : state) : promise T * state :=
  (fn (calls s),
   mkState (now s) (timers s) (next_tid s) (S (calls s))
           (trace s ++ [EvCall (calls s)])).

(** [await withTimeout(fn(), timeoutMs)], line 29. *)
Definition attempt_once (s : state) : outcome T * state :=
  let '(p, s1) := call_fn s in
  let '(q, s2) := withTimeout p timeoutMs s1 in
  await q s2.

(** [onRetry?.(err, attempt + 1)], line 32. *)
Definition call_onRetry (err : jsval) (n : Z) (s : state)
  : option jsval * state :=
  match onRetry with
  | None => (None, s)
  | Some f =>
      (f err n,
       mkState (now s) (timers s) (next_tid s) (calls s)
               (trace s ++ [EvOnRetry err n]))
  end.

(** [Math.floor(delay * factor)], line 34. *)
Definition next_delay (delay : Z) : Z := Qfloor (inject_Z delay * factor).

(** Lines 27-39: the [while] loop and the [throw] after it. *)
Equations? loop (attempt : Z) (delay : Z) (s : state) : exit T * state
  by wf (Z.to_nat (retries - attempt + 1)) lt :=
  loop attempt delay s with Z_le_gt_dec attempt retries => {
    | right _ => (Fallback, s);
    | left _ with attempt_once s => {
        | (Fulfil v, s1) => (Returned v, s1);
        | (Pending, s1) => (Hung, s1);
        | (Reject err, s1) with Z.eq_dec attempt retries => {
            | left _ => (Rethrown err, s1);
            | right _ with call_onRetry err (attempt + 1) s1 => {
                | (Some x, s2) => (CallbackThrew x, s2);
                | (None, s2) =>
                    loop (attempt + 1) (next_delay delay) (sleep delay s2) } } } }.
Proof. lia. Qed.

End Loop.

(** ** [retry] *)

(** The [opts] object; an absent (or [undefined]) property is [None]. *)
Record options : Type := mkOptions {
  retries : option Z;
  delayMs : option Z;
  factor : option Q;
  onRetry : option callback;
  timeoutMs : option Z
}.

(** The object [{}]. *)
Definition no_options : options := mkOptions None None None None None.

(** A destructuring default, [x = d], and [opts || {}]. *)
Definition or_default {A} (d : A) (o : option A) : A :=
  match o with
  | Some x => x
  | None => d
  end.

(** Line 19: the options in force, [opts || {}] with the defaults of the
    destructuring pattern. *)
Definition retries_of (opts : option options) : Z :=
  or_default 3 (retries (or_default no_options opts)).
Definition delayMs_of (opts : option options) : Z :=
  or_default 100 (delayMs (or_default no_options opts)).
Definition factor_of (opts : option options) : Q :=
  or_default (2 # 1) (factor (or_default no_options opts)).
Definition onRetry_of (opts : option options) : option callback :=
  onRetry (or_default no_options opts).
Definition timeoutMs_of (opts : option options) : option Z :=
  timeoutMs (or_default no_options opts).

(** Lines 15-40. *)
Definition retry {T} (fn : nat -> promise T) (opts : option options)
  : exit T * state :=
  loop fn (retries_of opts) (factor_of opts) (onRetry_of opts)
       (timeoutMs_of opts) 0 (delayMs_of opts) init.

(** ** Vocabulary of the properties *)

(** The promise awaited by an attempt: the factory's promise, raced with
    the timer when a timeout is configured. *)
Definition bounded {T} (ms : option Z) (p : promise T) : promise T :=
  match ms with
  | None => p
  | Some ms => race p (Some (timer_delay ms, Rejected timeout_error))
  end.

Definition settled {T} (p : promise T) : outcome T :=
  match p with
  | None => Pending
  | Some (_, Fulfilled v) => Fulfil v
  | Some (_, Rejected e) => Reject e
  end.

(** The result of the attempt made by the [i]-th invocation of [fn]. *)
Definition attempt_result {T} (fn : nat -> promise T) (ms : option Z)
  (i : nat) : outcome T :=
  settled (bounded ms (fn i)).

(** The observer never throws. *)
Definition quiet (cb : option callback) : Prop :=
  match cb with
  | None => True
  | Some f => forall e n, f e n = None
  end.

(** The observer returns from the call [onRetry(e, n)]. *)
Definition returns_normally (cb : option callback) (e : jsval) (n : Z) : Prop :=
  match cb with
  | None => True
  | Some f => f e n = None
  end.

(** The delays slept, in order: the arguments of [sleep]. *)
Definition sleeps (tr : list event) : list Z :=
  flat_map (fun e => match e with
                     | EvSetTimeout Backoff ms => [ms]
                     | _ => []
                     end) tr.

(** The calls of [onRetry], in order. *)
Definition onRetry_calls (tr : list event) : list (jsval * Z) :=
  flat_map (fun e => match e with
                     | EvOnRetry err n => [(err, n)]
                     | _ => []
                     end) tr.

(** The backoff schedule as the loop computes it: [d0], then the floor of
    the previous delay times the factor. *)
Fixpoint backoff (f : Q) (d0 : Z) (n : nat) : Z :=
  match n with
  | O => d0
  | S n' => next_delay f (backoff f d0 n')
  end.

(** The timer of the race settles before the factory's promise does. *)
Definition timed_out {T} (ms : option Z) (p : promise T) : bool :=
  match ms, p with
  | None, _ => false
  | Some _, None => true
  | Some m, Some (d, _) => negb (Z.max 0 d <=? timer_delay m)
  end.

(** The error caught at line 30 when the [i]-th invocation fails. *)
Definition caught {T} (fn : nat -> promise T) (ms : option Z) (i : nat)
  : jsval :=
  match attempt_result fn ms i with
  | Reject e => e
  | _ => JUndefined
  end.

(** After how many failed attempts the observer has been called, in a run
    that made [c] invocations and left as [x]: after each failure but the
    last one, unless the observer's own throw ended the run. *)
Definition observed {T} (x : exit T) (c : nat) : nat :=
  match x with
  | CallbackThrew _ => c
  | _ => Nat.pred c
  end.


(** Only race timers are in the table, none due before the present. *)
Definition table_ok (s : state) : Prop :=
  forall tm, In tm (timers s) -> tkind tm = Race /\ now s <= due tm.

(** The handles in the table have all been given out already. *)
Definition handles_fresh (s : state) : Prop :=
  forall tm, In tm (timers s) -> (tid tm < next_tid s)%nat.

(** The state in which an attempt waits: the factory has been called and
    the timer of the race, if there is one, is armed. *)
Definition waiting {T} (fn : nat -> promise T) (ms : option Z) (s : state)
  : state :=
  snd (withTimeout (fst (call_fn fn s)) ms (snd (call_fn fn s))).

(** ** Inputs used in the examples *)

Definition always_fail (e : jsval) : nat -> promise string :=
  fun _ => Some (0, Rejected e).

(** Rejects with the number of the invocation on the first [k]
    invocations, then resolves with ["ok"]. *)
Definition fail_then_ok (k : nat) : nat -> promise string :=
  fun i => if (i <? k)%nat
           then Some (0, Rejected (JNumber (Z.of_nat i)))
           else Some (0, Fulfilled "ok").

(** Resolves with ["ok"] after [d] ms, every time. *)
Definition slow_ok (d : Z) : nat -> promise string :=
  fun _ => Some (d, Fulfilled "ok").

Definition never_settles : nat -> promise string := fun _ => None.

Definition with_retries (r : Z) : options :=
  mkOptions (Some r) None None None None.

Definition throwing_observer (x : jsval) : callback := fun _ _ => Some x.

(** Returns on the attempts before the [k]-th, throws [x] from then on. *)
Definition throws_from (k : Z) (x : jsval) : callback :=
  fun _ n => if k <=? n then Some x else None.
Definition silent_observer : callback := fun _ _ => None.

(** ** One iteration of the loop *)

Section LoopFacts.
Context {T : Type}.
Variable fn : nat -> promise T.
Variables (r : Z) (f : Q).
Variable cb : option callback.
Variable ms : option Z.

Lemma loop_exit a d s :
  a > r -> loop fn r f cb ms a d s = (Fallback, s).
Proof.
  intros Ha. rewrite loop_equation_1.
  destruct (Z_le_gt_dec a r) as [Hle | Hgt]; [lia | now simp loop].
Qed.

Lemma loop_return a d s v s1 :
  a <= r -> attempt_once fn ms s = (Fulfil v, s1) ->
  loop fn r f cb ms a d s = (Returned v, s1).
Proof.
  intros Ha Hat. rewrite loop_equation_1.
  destruct (Z_le_gt_dec a r) as [Hle | Hgt]; [| lia].
  simp loop. rewrite Hat. now simp loop.
Qed.

Lemma loop_hang a d s s1 :
  a <= r -> attempt_once fn ms s = (Pending, s1) ->
  loop fn r f cb ms a d s = (Hung, s1).
Proof.
  intros Ha Hat. rewrite loop_equation_1.
  destruct (Z_le_gt_dec a r) as [Hle | Hgt]; [| lia].
  simp loop. rewrite Hat. now simp loop.
Qed.

Lemma loop_rethrow a d s e s1 :
  a = r -> attempt_once fn ms s = (Reject e, s1) ->
  loop fn r f cb ms a d s = (Rethrown e, s1).
Proof.
  intros Ha Hat. rewrite loop_equation_1.
  destruct (Z_le_gt_dec a r) as [Hle | Hgt]; [| lia].
  simp loop. rewrite Hat. simp loop.
  destruct (Z.eq_dec a r) as [Heq | Hne]; [now simp loop | lia].
Qed.

Lemma loop_abort a d s e s1 x s2 :
  a < r -> attempt_once fn ms s = (Reject e, s1) ->
  call_onRetry cb e (a + 1) s1 = (Some x, s2) ->
  loop fn r f cb ms a d s = (CallbackThrew x, s2).
Proof.
  intros Ha Hat Hcb. rewrite loop_equation_1.
  destruct (Z_le_gt_dec a r) as [Hle | Hgt]; [| lia].
  simp loop. rewrite Hat. simp loop.
  destruct (Z.eq_dec a r) as [Heq | Hne]; [lia |].
  simp loop. rewrite Hcb. now simp loop.
Qed.

Lemma loop_again a d s e s1 s2 :
  a < r -> attempt_once fn ms s = (Reject e, s1) ->
  call_onRetry cb e (a + 1) s1 = (None, s2) ->
  loop fn r f cb ms a d s =
  loop fn r f cb ms (a + 1) (next_delay f d) (sleep d s2).
Proof.
  intros Ha Hat Hcb. rewrite loop_equation_1.
  destruct (Z_le_gt_dec a r) as [Hle | Hgt]; [| lia].
  simp loop. rewrite Hat. simp loop.
  destruct (Z.eq_dec a r) as [Heq | Hne]; [lia |].
  simp loop. rewrite Hcb. now simp loop.
Qed.

(** *** What an attempt, the observer and a sleep do to the state *)

Lemma await_calls {A} (p : tracked A) s :
  calls (snd (await p s)) = calls s.
Proof. destruct p as [[[d [v | e]] |] [id |]]; reflexivity. Qed.

Lemma await_trace {A} (p : tracked A) s :
  trace (snd (await p s)) = trace s.
Proof. destruct p as [[[d [v | e]] |] [id |]]; reflexivity. Qed.

Lemma await_outcome {A} (p : tracked A) s :
  fst (await p s) = settled (fst p).
Proof. destruct p as [[[d [v | e]] |] [id |]]; reflexivity. Qed.

Lemma attempt_once_result s :
  fst (attempt_once fn ms s) = attempt_result fn ms (calls s).
Proof.
  unfold attempt_once, attempt_result, bounded, withTimeout, call_fn.
  destruct ms as [m |]; cbn -[await race overtakes];
    now rewrite await_outcome.
Qed.

Lemma attempt_once_calls s :
  calls (snd (attempt_once fn ms s)) = S (calls s).
Proof.
  unfold attempt_once, withTimeout, call_fn.
  destruct ms as [m |]; cbn -[await race overtakes];
    now rewrite await_calls.
Qed.

Lemma attempt_once_trace s :
  trace (snd (attempt_once fn ms s)) =
  trace s ++ EvCall (calls s) ::
    match ms with
    | Some m => [EvSetTimeout Race m]
    | None => []
    end.
Proof.
  unfold attempt_once, withTimeout, call_fn.
  destruct ms as [m |]; cbn -[await race overtakes]; rewrite await_trace; cbn;
    [now rewrite <- app_assoc | reflexivity].
Qed.

Lemma sleep_calls d s : calls (sleep d s) = calls s.
Proof. reflexivity. Qed.

Lemma sleep_trace d s : trace (sleep d s) = trace s ++ [EvSetTimeout Backoff d].
Proof. reflexivity. Qed.

Lemma call_onRetry_calls e n s :
  calls (snd (call_onRetry cb e n s)) = calls s.
Proof. unfold call_onRetry. now destruct cb. Qed.

Lemma call_onRetry_trace e n s :
  trace (snd (call_onRetry cb e n s)) =
  trace s ++ match cb with
             | Some _ => [EvOnRetry e n]
             | None => []
             end.
Proof.
  unfold call_onRetry. destruct cb; cbn; [reflexivity | now rewrite app_nil_r].
Qed.

Lemma call_onRetry_quiet e n s :
  quiet cb -> fst (call_onRetry cb e n s) = None.
Proof. unfold call_onRetry, quiet. destruct cb; cbn; auto. Qed.

End LoopFacts.

(** ** Runs of the loop *)

Section Runs.
Context {T : Type}.
Variable fn : nat -> promise T.
Variables (r : Z) (f : Q).
Variable cb : option callback.
Variable ms : option Z.

Lemma sleeps_app tr1 tr2 : sleeps (tr1 ++ tr2) = sleeps tr1 ++ sleeps tr2.
Proof. apply flat_map_app. Qed.

Lemma onRetry_calls_app tr1 tr2 :
  onRetry_calls (tr1 ++ tr2) = onRetry_calls tr1 ++ onRetry_calls tr2.
Proof. apply flat_map_app. Qed.

Lemma backoff_next d n :
  backoff f (next_delay f d) n = backoff f d (S n).
Proof. induction n as [| n IH]; cbn in *; congruence. Qed.

Lemma backoff_shift d n :
  map (backoff f d) (seq 1 n) = map (backoff f (next_delay f d)) (seq 0 n).
Proof.
  rewrite <- seq_shift, map_map. apply map_ext. intros i.
  symmetry. apply backoff_next.
Qed.

Lemma quiet_returns e n : quiet cb -> returns_normally cb e n.
Proof. unfold quiet, returns_normally. destruct cb; auto. Qed.

Lemma call_onRetry_returns e n s :
  returns_normally cb e n ->
  call_onRetry cb e n s = (None, snd (call_onRetry cb e n s)).
Proof. unfold call_onRetry, returns_normally. destruct cb; cbn; congruence. Qed.

(** An iteration whose attempt fails, whose observer returns and which is
    not the last one: the loop goes round, one call, one observer call
    and one sleep later. *)
Lemma failed_iteration a d s e :
  a < r ->
  attempt_result fn ms (calls s) = Reject e ->
  returns_normally cb e (a + 1) ->
  exists s',
    loop fn r f cb ms a d s = loop fn r f cb ms (a + 1) (next_delay f d) s' /\
    calls s' = S (calls s) /\
    sleeps (trace s') = sleeps (trace s) ++ [d] /\
    onRetry_calls (trace s') =
    onRetry_calls (trace s) ++ match cb with
                               | Some _ => [(e, a + 1)]
                               | None => []
                               end.
Proof.
  intros Ha Hres Hcb.
  pose proof (attempt_once_result fn ms s) as Ho.
  pose proof (attempt_once_calls fn ms s) as Hc.
  pose proof (attempt_once_trace fn ms s) as Ht.
  destruct (attempt_once fn ms s) as [o s1] eqn:Hat. cbn in Ho, Hc, Ht.
  rewrite Hres in Ho. subst o.
  pose proof (call_onRetry_returns e (a + 1) s1 Hcb) as Hcall.
  pose proof (call_onRetry_calls cb e (a + 1) s1) as Hc2.
  pose proof (call_onRetry_trace cb e (a + 1) s1) as Ht2.
  set (s2 := snd (call_onRetry cb e (a + 1) s1)) in *.
  exists (sleep d s2). split; [| split; [| split]].
  - now apply loop_again with (e := e) (s1 := s1).
  - rewrite sleep_calls. congruence.
  - rewrite sleep_trace, Ht2, Ht, !sleeps_app.
    destruct ms, cb; cbn; now rewrite ?app_nil_r.
  - rewrite sleep_trace, Ht2, Ht, !onRetry_calls_app.
    destruct ms, cb; cbn; now rewrite ?app_nil_r.
Qed.

(** [n] such iterations in a row. *)
Lemma failed_iterations (errs : nat -> jsval) n :
  forall s d,
    Z.of_nat (calls s + n) <= r ->
    (forall i, (calls s <= i < calls s + n)%nat ->
               attempt_result fn ms i = Reject (errs i) /\
               returns_normally cb (errs i) (Z.of_nat i + 1)) ->
    exists s',
      loop fn r f cb ms (Z.of_nat (calls s)) d s =
      loop fn r f cb ms (Z.of_nat (calls s + n)) (backoff f d n) s' /\
      calls s' = (calls s + n)%nat /\
      sleeps (trace s') = sleeps (trace s) ++ map (backoff f d) (seq 0 n) /\
      onRetry_calls (trace s') =
      onRetry_calls (trace s) ++
        match cb with
        | Some _ => map (fun i => (errs i, Z.of_nat i + 1)) (seq (calls s) n)
        | None => []
        end.
Proof.
  induction n as [| n IH]; intros s d Hr Hfail.
  - exists s. rewrite Nat.add_0_r. cbn.
    repeat split; try now rewrite ?app_nil_r.
    destruct cb; now rewrite app_nil_r.
  - destruct (Hfail (calls s)) as [Hres Hcb]; [lia |].
    destruct (failed_iteration (Z.of_nat (calls s)) d s (errs (calls s)))
      as (s1 & Hloop & Hc1 & Hs1 & Ho1); [lia | assumption | assumption |].
    destruct (IH s1 (next_delay f d)) as (s' & Hloop' & Hc' & Hs' & Ho').
    + rewrite Hc1. lia.
    + intros i Hi. apply Hfail. lia.
    + exists s'. rewrite Hc1 in *.
      replace (Z.of_nat (calls s) + 1) with (Z.of_nat (S (calls s))) in Hloop by lia.
      replace (calls s + S n)%nat with (S (calls s) + n)%nat by lia.
      split; [now rewrite Hloop, Hloop', backoff_next |].
      split; [assumption |]. split.
      * rewrite Hs', Hs1, <- app_assoc. cbn [seq map app].
        now rewrite backoff_shift.
      * rewrite Ho', Ho1, <- app_assoc.
        destruct cb; [| reflexivity].
        cbn [seq map app]. reflexivity.
Qed.

End Runs.

(** ** Exhausted retries *)

(** C1, as amended.  For every whole-number [retries = r >= 0], when every
    attempt fails and the observer, if there is one, returns from each of
    its calls, [retry] invokes the factory exactly [r + 1] times and
    rejects with the error of the last attempt, as it is. *)
Theorem retry_always_failing {T} (fn : nat -> promise T)
    (opts : option options) (errs : nat -> jsval) :
  0 <= retries_of opts ->
  (forall i, (i <= Z.to_nat (retries_of opts))%nat ->
             attempt_result fn (timeoutMs_of opts) i = Reject (errs i)) ->
  (forall i, (i < Z.to_nat (retries_of opts))%nat ->
             returns_normally (onRetry_of opts) (errs i) (Z.of_nat i + 1)) ->
  calls (snd (retry fn opts)) = Z.to_nat (retries_of opts + 1) /\
  fst (retry fn opts) = Rethrown (errs (Z.to_nat (retries_of opts))) /\
  completion (fst (retry fn opts)) =
  Some (0, Rejected (errs (Z.to_nat (retries_of opts)))).
Proof.
  intros Hr Hfail Hcb. unfold retry.
  set (r := retries_of opts) in *.
  destruct (failed_iterations fn r (factor_of opts) (onRetry_of opts)
              (timeoutMs_of opts) errs (Z.to_nat r) init (delayMs_of opts))
    as (s' & Hloop & Hc & _ & _).
  - cbn. lia.
  - cbn. intros i Hi. split; [apply Hfail | apply Hcb]; lia.
  - cbn in Hloop, Hc. rewrite Hloop.
    pose proof (attempt_once_result fn (timeoutMs_of opts) s') as Ho.
    pose proof (attempt_once_calls fn (timeoutMs_of opts) s') as Hc1.
    destruct (attempt_once fn (timeoutMs_of opts) s') as [o s1] eqn:Hat.
    cbn in Ho, Hc1. rewrite Hc, Hfail in Ho by lia. subst o.
    rewrite (loop_rethrow _ _ _ _ _ _ _ _ _ _ (Z2Nat.id r Hr) Hat). cbn.
    repeat split. rewrite Hc1, Hc. lia.
Qed.

Lemma retry_always_failing_witness :
  calls (snd (retry (always_fail (JString "E")) (Some (with_retries 2)))) = 3%nat /\
  fst (retry (always_fail (JString "E")) (Some (with_retries 2))) =
  Rethrown (JString "E").
Proof.
  destruct (retry_always_failing (always_fail (JString "E"))
              (Some (with_retries 2)) (fun _ => JString "E"))
    as (Hc & Hx & _).
  - vm_compute. discriminate.
  - intros i _. reflexivity.
  - intros i _. exact I.
  - split; [exact Hc | exact Hx].
Defined.

(** C1, as stated, fails: the operation fails on every invocation and
    [retries] is 3, but the observer throws at its second call, so the
    factory is invoked twice, not four times, and the call rejects with the
    observer's error, not with the error of an attempt. *)
Lemma retry_always_failing_counterexample :
  calls (snd (retry (always_fail (JString "E"))
                (Some (mkOptions (Some 3) None None
                         (Some (throws_from 2 (JString "boom"))) None))))
  = 2%nat /\
  completion (fst (retry (always_fail (JString "E"))
                     (Some (mkOptions (Some 3) None None
                              (Some (throws_from 2 (JString "boom"))) None))))
  = Some (0, Rejected (JString "boom")) /\
  calls (snd (retry (always_fail (JString "E"))
                (Some (mkOptions (Some 3) None None
                         (Some (throws_from 2 (JString "boom"))) None))))
  <> Z.to_nat (3 + 1) /\
  completion (fst (retry (always_fail (JString "E"))
                     (Some (mkOptions (Some 3) None None
                              (Some (throws_from 2 (JString "boom"))) None))))
  <> Some (0, Rejected (JString "E")).
Proof. repeat split; discriminate. Qed.

(** ** Success after some failures *)

(** C2, as amended.  When the first [k <= retries] attempts fail, attempt
    [k + 1] succeeds and [onRetry], if there is one, returns from each of
    its calls, [retry] returns the success value after exactly [k + 1]
    invocations of the factory, and [onRetry] is called exactly [k] times:
    the [i]-th call gets the [i]-th failure's error and the attempt number
    [i], in the order [1..k]. *)
Theorem retry_fails_then_succeeds {T} (fn : nat -> promise T)
    (opts : option options) (k : nat) (errs : nat -> jsval) (v : T) :
  Z.of_nat k <= retries_of opts ->
  (forall i, (i < k)%nat ->
             attempt_result fn (timeoutMs_of opts) i = Reject (errs i) /\
             returns_normally (onRetry_of opts) (errs i) (Z.of_nat i + 1)) ->
  attempt_result fn (timeoutMs_of opts) k = Fulfil v ->
  fst (retry fn opts) = Returned v /\
  calls (snd (retry fn opts)) = S k /\
  onRetry_calls (trace (snd (retry fn opts))) =
  match onRetry_of opts with
  | Some _ => map (fun i => (errs i, Z.of_nat i + 1)) (seq 0 k)
  | None => []
  end.
Proof.
  intros Hk Hfail Hok. unfold retry.
  destruct (failed_iterations fn (retries_of opts) (factor_of opts)
              (onRetry_of opts) (timeoutMs_of opts) errs k init
              (delayMs_of opts))
    as (s' & Hloop & Hc & _ & Hobs).
  - cbn. lia.
  - cbn. intros i Hi. apply Hfail. lia.
  - cbn in Hloop, Hc, Hobs. rewrite Hloop.
    pose proof (attempt_once_result fn (timeoutMs_of opts) s') as Ho.
    pose proof (attempt_once_calls fn (timeoutMs_of opts) s') as Hc1.
    pose proof (attempt_once_trace fn (timeoutMs_of opts) s') as Ht1.
    destruct (attempt_once fn (timeoutMs_of opts) s') as [o s1] eqn:Hat.
    cbn in Ho, Hc1, Ht1. rewrite Hc, Hok in Ho. subst o.
    rewrite (loop_return _ _ _ _ _ _ _ _ _ _ Hk Hat). cbn.
    split; [reflexivity |]. split; [congruence |].
    rewrite Ht1, onRetry_calls_app, Hobs.
    destruct (timeoutMs_of opts); cbn; apply app_nil_r.
Qed.

Lemma retry_fails_then_succeeds_witness :
  fst (retry (fail_then_ok 2)
         (Some (mkOptions (Some 2) (Some 10) (Some (2 # 1))
                  (Some silent_observer) None))) = Returned "ok" /\
  calls (snd (retry (fail_then_ok 2)
         (Some (mkOptions (Some 2) (Some 10) (Some (2 # 1))
                  (Some silent_observer) None)))) = 3%nat /\
  onRetry_calls (trace (snd (retry (fail_then_ok 2)
         (Some (mkOptions (Some 2) (Some 10) (Some (2 # 1))
                  (Some silent_observer) None))))) =
  [(JNumber 0, 1); (JNumber 1, 2)].
Proof.
  apply (retry_fails_then_succeeds (fail_then_ok 2)
           (Some (mkOptions (Some 2) (Some 10) (Some (2 # 1))
                    (Some silent_observer) None))
           2 (fun i => JNumber (Z.of_nat i)) "ok").
  - vm_compute. discriminate.
  - intros i Hi. split; [| reflexivity].
    destruct i as [| [| i]]; [reflexivity | reflexivity | lia].
  - reflexivity.
Defined.

(** C2, as stated, fails: the operation fails once and then succeeds, with
    [retries = 1], but the observer throws at its first call: the factory
    is invoked once and the call rejects with the observer's error instead
    of returning the success value. *)
Lemma retry_fails_then_succeeds_counterexample :
  fail_then_ok 1 0%nat = Some (0, Rejected (JNumber 0)) /\
  fail_then_ok 1 1%nat = Some (0, Fulfilled "ok") /\
  fst (retry (fail_then_ok 1)
         (Some (mkOptions (Some 1) None None
                  (Some (throwing_observer (JString "boom"))) None)))
  = CallbackThrew (JString "boom") /\
  fst (retry (fail_then_ok 1)
         (Some (mkOptions (Some 1) None None
                  (Some (throwing_observer (JString "boom"))) None)))
  <> Returned "ok" /\
  calls (snd (retry (fail_then_ok 1)
                (Some (mkOptions (Some 1) None None
                         (Some (throwing_observer (JString "boom"))) None))))
  = 1%nat.
Proof. repeat split. discriminate. Qed.

(** ** A throwing observer *)

(** C6.  When [onRetry] throws after a failed attempt that is not the last
    one, nothing catches its error: the call rejects with it, and the call
    of the observer is the last thing [retry] does, so neither a backoff
    sleep nor another attempt follows. *)
Theorem retry_observer_throws {T} (fn : nat -> promise T)
    (opts : option options) (g : callback) (j : nat)
    (errs : nat -> jsval) (x : jsval) :
  onRetry_of opts = Some g ->
  Z.of_nat j < retries_of opts ->
  (forall i, (i < j)%nat ->
             attempt_result fn (timeoutMs_of opts) i = Reject (errs i) /\
             g (errs i) (Z.of_nat i + 1) = None) ->
  attempt_result fn (timeoutMs_of opts) j = Reject (errs j) ->
  g (errs j) (Z.of_nat j + 1) = Some x ->
  fst (retry fn opts) = CallbackThrew x /\
  completion (fst (retry fn opts)) = Some (0, Rejected x) /\
  calls (snd (retry fn opts)) = S j /\
  length (sleeps (trace (snd (retry fn opts)))) = j /\
  exists tr, trace (snd (retry fn opts)) =
             tr ++ [EvOnRetry (errs j) (Z.of_nat j + 1)].
Proof.
  intros Hg Hj Hfail Hlast Hthrow. unfold retry.
  destruct (failed_iterations fn (retries_of opts) (factor_of opts)
              (onRetry_of opts) (timeoutMs_of opts) errs j init
              (delayMs_of opts))
    as (s' & Hloop & Hc & Hsl & _).
  - cbn. lia.
  - cbn. intros i Hi. rewrite Hg. cbn. apply Hfail. lia.
  - cbn in Hloop, Hc, Hsl. rewrite Hloop.
    pose proof (attempt_once_result fn (timeoutMs_of opts) s') as Ho.
    pose proof (attempt_once_calls fn (timeoutMs_of opts) s') as Hc1.
    pose proof (attempt_once_trace fn (timeoutMs_of opts) s') as Ht1.
    destruct (attempt_once fn (timeoutMs_of opts) s') as [o s1] eqn:Hat.
    cbn in Ho, Hc1, Ht1. rewrite Hc, Hlast in Ho. subst o.
    pose proof (call_onRetry_calls (onRetry_of opts) (errs j)
                  (Z.of_nat j + 1) s1) as Hc2.
    pose proof (call_onRetry_trace (onRetry_of opts) (errs j)
                  (Z.of_nat j + 1) s1) as Ht2.
    destruct (call_onRetry (onRetry_of opts) (errs j) (Z.of_nat j + 1) s1)
      as [y s2] eqn:Hcall.
    assert (y = Some x) as ->.
    { unfold call_onRetry in Hcall. rewrite Hg in Hcall.
      inversion Hcall. assumption. }
    cbn in Hc2, Ht2. rewrite Hg in Ht2.
    rewrite (loop_abort _ _ _ _ _ _ _ _ _ _ _ _ Hj Hat Hcall). cbn.
    split; [reflexivity |]. split; [reflexivity |].
    split; [congruence |]. split; [| eexists; eassumption].
    rewrite Ht2, Ht1, !sleeps_app, Hsl.
    destruct (timeoutMs_of opts); cbn;
      rewrite ?app_nil_r, length_map, length_seq; reflexivity.
Qed.

Lemma retry_observer_throws_witness :
  fst (retry (always_fail (JString "E"))
         (Some (mkOptions (Some 3) None None
                  (Some (throws_from 2 (JString "boom"))) None))) =
  CallbackThrew (JString "boom") /\
  calls (snd (retry (always_fail (JString "E"))
         (Some (mkOptions (Some 3) None None
                  (Some (throws_from 2 (JString "boom"))) None)))) = 2%nat /\
  length (sleeps (trace (snd (retry (always_fail (JString "E"))
         (Some (mkOptions (Some 3) None None
                  (Some (throws_from 2 (JString "boom"))) None)))))) = 1%nat.
Proof.
  destruct (retry_observer_throws (always_fail (JString "E"))
              (Some (mkOptions (Some 3) None None
                       (Some (throws_from 2 (JString "boom"))) None))
              (throws_from 2 (JString "boom")) 1
              (fun _ => JString "E") (JString "boom"))
    as (Hx & _ & Hc & Hs & _).
  - reflexivity.
  - vm_compute. reflexivity.
  - intros i Hi. assert (i = 0%nat) as -> by lia. split; reflexivity.
  - reflexivity.
  - reflexivity.
  - split; [exact Hx |]. split; [exact Hc | exact Hs].
Defined.

(** ** The statement after the loop *)

Section Dichotomy.
Context {T : Type}.
Variable fn : nat -> promise T.
Variables (r : Z) (f : Q).
Variable cb : option callback.
Variable ms : option Z.

(** Entered with [attempt <= retries], the loop never falls through to
    line 39. *)
Lemma loop_never_falls_through n :
  forall a d s, Z.to_nat (r - a) = n -> a <= r ->
                fst (loop fn r f cb ms a d s) <> Fallback.
Proof.
  induction n as [| n IH]; intros a d s Hn Ha;
    destruct (attempt_once fn ms s) as [[v | e |] s1] eqn:Hat;
    try (rewrite (loop_return _ _ _ _ _ _ _ _ _ _ Ha Hat); discriminate);
    try (rewrite (loop_hang _ _ _ _ _ _ _ _ _ Ha Hat); discriminate).
  - rewrite (loop_rethrow fn r f cb ms a d s e s1); [discriminate | lia | assumption].
  - destruct (Z.eq_dec a r) as [Heq | Hne].
    + rewrite (loop_rethrow _ _ _ _ _ _ _ _ _ _ Heq Hat). discriminate.
    + destruct (call_onRetry cb e (a + 1) s1) as [[x |] s2] eqn:Hcall.
      * rewrite (loop_abort fn r f cb ms a d s e s1 x s2);
          [discriminate | lia | assumption | assumption].
      * rewrite (loop_again fn r f cb ms a d s e s1 s2);
          [apply IH; lia | lia | assumption | assumption].
Qed.

(** With an observer that returns and attempts that all settle, the loop
    ends in a [return] of some attempt's value or in the [throw] of the
    last attempt's error. *)
Lemma loop_two_exits n :
  forall a d s,
    Z.to_nat (r - a) = n -> a <= r -> a = Z.of_nat (calls s) ->
    quiet cb ->
    (forall i, (i <= Z.to_nat r)%nat -> attempt_result fn ms i <> Pending) ->
    (exists i v, (i <= Z.to_nat r)%nat /\
                 attempt_result fn ms i = Fulfil v /\
                 fst (loop fn r f cb ms a d s) = Returned v) \/
    (exists e, attempt_result fn ms (Z.to_nat r) = Reject e /\
               fst (loop fn r f cb ms a d s) = Rethrown e).
Proof.
  induction n as [| n IH]; intros a d s Hn Ha Hs Hq Hsettle;
    pose proof (attempt_once_result fn ms s) as Ho;
    pose proof (attempt_once_calls fn ms s) as Hc;
    destruct (attempt_once fn ms s) as [[v | e |] s1] eqn:Hat; cbn in Ho, Hc;
    try (left; exists (calls s), v;
         rewrite (loop_return _ _ _ _ _ _ _ _ _ _ Ha Hat);
         repeat split; [lia | now symmetry]);
    try (exfalso; apply (Hsettle (calls s)); [lia | now symmetry]).
  - right. exists e. replace (Z.to_nat r) with (calls s) by lia.
    rewrite (loop_rethrow fn r f cb ms a d s e s1); [| lia | assumption].
    split; [now symmetry | reflexivity].
  - destruct (Z.eq_dec a r) as [Heq | Hne].
    + right. exists e. replace (Z.to_nat r) with (calls s) by lia.
      rewrite (loop_rethrow _ _ _ _ _ _ _ _ _ _ Heq Hat).
      split; [now symmetry | reflexivity].
    + pose proof (call_onRetry_quiet cb e (a + 1) s1 Hq) as Hnone.
      pose proof (call_onRetry_calls cb e (a + 1) s1) as Hc2.
      destruct (call_onRetry cb e (a + 1) s1) as [y s2] eqn:Hcall.
      cbn in Hnone, Hc2. subst y.
      rewrite (loop_again fn r f cb ms a d s e s1 s2);
        [| lia | assumption | assumption].
      apply IH; try assumption; try lia.
      rewrite sleep_calls. lia.
Qed.

End Dichotomy.

(** C7, as amended.  For every whole-number [retries = r >= 0] the generic
    failure after the loop ('retry failed', line 39) is never raised; and
    when every attempt settles and the observer, if there is one, returns
    from its calls, the call has one of two outcomes: it returns the value
    of some attempt, or it rejects with the error of the final attempt. *)
Theorem retry_fallback_unreachable {T} (fn : nat -> promise T)
    (opts : option options) :
  0 <= retries_of opts ->
  fst (retry fn opts) <> Fallback /\
  (quiet (onRetry_of opts) ->
   (forall i, (i <= Z.to_nat (retries_of opts))%nat ->
              attempt_result fn (timeoutMs_of opts) i <> Pending) ->
   (exists i v, (i <= Z.to_nat (retries_of opts))%nat /\
                attempt_result fn (timeoutMs_of opts) i = Fulfil v /\
                fst (retry fn opts) = Returned v) \/
   (exists e, attempt_result fn (timeoutMs_of opts)
                (Z.to_nat (retries_of opts)) = Reject e /\
              fst (retry fn opts) = Rethrown e)).
Proof.
  intros Hr. unfold retry. split.
  - apply (loop_never_falls_through fn _ _ _ _ (Z.to_nat (retries_of opts - 0)));
      [reflexivity | assumption].
  - intros Hq Hsettle.
    apply (loop_two_exits fn _ _ _ _ (Z.to_nat (retries_of opts - 0)));
      [reflexivity | assumption | reflexivity | assumption | assumption].
Qed.

Lemma retry_fallback_unreachable_witness :
  fst (retry (fail_then_ok 1) (Some (with_retries 1))) <> Fallback /\
  ((exists i v, (i <= 1)%nat /\
                attempt_result (fail_then_ok 1) None i = Fulfil v /\
                fst (retry (fail_then_ok 1) (Some (with_retries 1))) = Returned v) \/
   (exists e, attempt_result (fail_then_ok 1) None 1 = Reject e /\
              fst (retry (fail_then_ok 1) (Some (with_retries 1))) = Rethrown e)).
Proof.
  destruct (retry_fallback_unreachable (fail_then_ok 1) (Some (with_retries 1)))
    as [Hnot Htwo].
  - vm_compute. discriminate.
  - split; [exact Hnot |]. apply Htwo.
    + exact I.
    + intros i _. unfold attempt_result, fail_then_ok. cbn.
      destruct (i <=? 0)%nat; cbn; discriminate.
Defined.

(** C7, as stated, fails, with [retries >= 0]: when the observer throws,
    the call rejects with the observer's error, which is no attempt's; and
    without a timeout an operation that never settles leaves the call
    pending, which is no outcome at all. *)
Lemma retry_two_outcomes_counterexample :
  fst (retry (always_fail (JString "E"))
         (Some (mkOptions (Some 3) None None
                  (Some (throws_from 2 (JString "boom"))) None)))
  = CallbackThrew (JString "boom") /\
  completion (fst (retry (always_fail (JString "E"))
                     (Some (mkOptions (Some 3) None None
                              (Some (throws_from 2 (JString "boom"))) None))))
  = Some (0, Rejected (JString "boom")) /\
  fst (retry never_settles (Some (with_retries 0))) = Hung /\
  completion (fst (retry never_settles (Some (with_retries 0)))) = None.
Proof. repeat split. Qed.

(** C10.  With a negative [retries] the loop body never runs: the factory
    and the observer are not invoked, and the call rejects with the generic
    'retry failed' error of line 39; the value is neither checked nor
    clamped. *)
Theorem retry_negative_retries {T} (fn : nat -> promise T)
    (opts : option options) :
  retries_of opts < 0 ->
  retry fn opts = (Fallback, init) /\
  completion (fst (retry fn opts)) = Some (0, Rejected retry_failed) /\
  calls (snd (retry fn opts)) = 0%nat /\
  onRetry_calls (trace (snd (retry fn opts))) = [].
Proof.
  intros Hr. unfold retry. rewrite loop_exit by lia. repeat split.
Qed.

Lemma retry_negative_retries_witness :
  retry (slow_ok 5)
    (Some (mkOptions (Some (-1)) None None
             (Some (throwing_observer JUndefined)) None)) = (Fallback, init).
Proof.
  apply (retry_negative_retries (slow_ok 5)
           (Some (mkOptions (Some (-1)) None None
                    (Some (throwing_observer JUndefined)) None))).
  reflexivity.
Defined.

(** ** Defaults *)

(** C8.  Calling [retry] without options, or with the empty object, is the
    same as calling it with [{retries: 3, delayMs: 100, factor: 2}], for
    every operation: same exit, same attempts, same delays. *)
Theorem retry_default_options {T} (fn : nat -> promise T) :
  retry fn None =
  retry fn (Some (mkOptions (Some 3) (Some 100) (Some (2 # 1)) None None)) /\
  retry fn (Some no_options) =
  retry fn (Some (mkOptions (Some 3) (Some 100) (Some (2 # 1)) None None)).
Proof. split; reflexivity. Qed.

(** ** The backoff schedule *)

Section Schedule.
Context {T : Type}.
Variable fn : nat -> promise T.
Variables (r : Z) (f : Q).
Variable cb : option callback.
Variable ms : option Z.

Lemma attempt_once_sleeps s :
  sleeps (trace (snd (attempt_once fn ms s))) = sleeps (trace s).
Proof.
  rewrite attempt_once_trace, sleeps_app.
  destruct ms; cbn; apply app_nil_r.
Qed.

Lemma call_onRetry_sleeps e n s :
  sleeps (trace (snd (call_onRetry cb e n s))) = sleeps (trace s).
Proof.
  rewrite call_onRetry_trace, sleeps_app.
  destruct cb; cbn; apply app_nil_r.
Qed.

(** Whatever the attempts do, the delays slept from a point of the loop
    on are an initial segment of the schedule that starts at the current
    delay. *)
Lemma loop_sleeps n :
  forall a d s,
    Z.to_nat (r - a + 1) = n ->
    exists k, sleeps (trace (snd (loop fn r f cb ms a d s))) =
              sleeps (trace s) ++ map (backoff f d) (seq 0 k).
Proof.
  induction n as [| n IH]; intros a d s Hn.
  - exists 0%nat. rewrite loop_exit by lia. cbn. now rewrite app_nil_r.
  - assert (a <= r) as Ha by lia.
    pose proof (attempt_once_sleeps s) as Hs1.
    destruct (attempt_once fn ms s) as [[v | e |] s1] eqn:Hat; cbn in Hs1.
    + exists 0%nat. rewrite (loop_return _ _ _ _ _ _ _ _ _ _ Ha Hat). cbn.
      now rewrite app_nil_r.
    + destruct (Z.eq_dec a r) as [Heq | Hne].
      * exists 0%nat. rewrite (loop_rethrow _ _ _ _ _ _ _ _ _ _ Heq Hat). cbn.
        now rewrite app_nil_r.
      * pose proof (call_onRetry_sleeps e (a + 1) s1) as Hs2.
        destruct (call_onRetry cb e (a + 1) s1) as [[x |] s2] eqn:Hcall;
          cbn in Hs2.
        -- exists 0%nat.
           rewrite (loop_abort fn r f cb ms a d s e s1 x s2);
             [| lia | assumption | assumption].
           cbn. rewrite app_nil_r. congruence.
        -- rewrite (loop_again fn r f cb ms a d s e s1 s2);
             [| lia | assumption | assumption].
           destruct (IH (a + 1) (next_delay f d) (sleep d s2)) as [k Hk];
             [lia |].
           exists (S k). rewrite Hk, sleep_trace, sleeps_app, Hs2, Hs1.
           cbn [sleeps flat_map app seq map backoff].
           now rewrite <- app_assoc, backoff_shift.
    + exists 0%nat. rewrite (loop_hang _ _ _ _ _ _ _ _ _ Ha Hat). cbn.
      now rewrite app_nil_r.
Qed.




End Schedule.




(** ** The per-attempt timeout *)

Lemma timer_delay_pos m : 1 <= timer_delay m.
Proof.
  unfold timer_delay.
  destruct (1 <=? m) eqn:H1; cbn; [| lia].
  destruct (m <=? 2147483647); [apply Z.leb_le in H1 |]; lia.
Qed.

Lemma timer_delay_max m : Z.max 0 (timer_delay m) = timer_delay m.
Proof. pose proof (timer_delay_pos m). lia. Qed.

Lemma overtakes_timer {T} (p : promise T) m e :
  overtakes p (Some (timer_delay m, Rejected e)) = timed_out (Some m) p.
Proof.
  unfold overtakes, timed_out.
  destruct p as [[d o] |]; [| reflexivity]. now rewrite timer_delay_max.
Qed.

Section Timeout.
Context {T : Type}.
Variable fn : nat -> promise T.

(** The timer wins the race: the attempt fails when the timer fires, and
    the timer, having fired, is out of the table. *)
Lemma attempt_once_timed_out m s :
  timed_out (Some m) (fn (calls s)) = true ->
  attempt_once fn (Some m) s =
  (Reject timeout_error,
   fired (Some (next_tid s))
         (advance (now s + timer_delay m)
                  (snd (setTimeout Race m (snd (call_fn fn s)))))).
Proof.
  intros Hto.
  unfold attempt_once, withTimeout, call_fn. cbn -[race overtakes await].
  rewrite overtakes_timer, Hto.
  unfold timed_out in Hto. unfold race, await.
  destruct (fn (calls s)) as [[dp o] |].
  - apply negb_true_iff in Hto. rewrite timer_delay_max, Hto.
    now rewrite timer_delay_max.
  - now rewrite timer_delay_max.
Qed.


(** Without a timeout the attempt is the operation; with one, a rejection
    of the operation still is a failure of the attempt. *)
Lemma attempt_result_unbounded i :
  attempt_result fn None i = settled (fn i).
Proof. reflexivity. Qed.

Lemma operation_failure_fails_attempt m i d e :
  fn i = Some (d, Rejected e) ->
  attempt_result fn m i = Reject e \/
  attempt_result fn m i = Reject timeout_error.
Proof.
  intros Hfn. unfold attempt_result, bounded, race. rewrite Hfn.
  destruct m as [t |]; [| now left].
  destruct (Z.max 0 d <=? Z.max 0 (timer_delay t)); [now left | now right].
Qed.

Lemma attempt_result_timed_out m i :
  timed_out (Some m) (fn i) = true ->
  attempt_result fn (Some m) i = Reject timeout_error.
Proof.
  unfold timed_out, attempt_result, bounded, race.
  destruct (fn i) as [[d o] |]; [| reflexivity].
  intros H. apply negb_true_iff in H. now rewrite timer_delay_max, H.
Qed.

End Timeout.



(** C5, as amended.  When the timer of the race fires first, the attempt
    fails with [new Error('timeout')]: an error of the generic kind [Error],
    the kind of any [new Error(...)] an operation may throw, told apart
    from those by its message only. *)
Theorem timeout_error_is_plain_error {T} (fn : nat -> promise T)
    (m : option Z) (s : state) :
  timed_out m (fn (calls s)) = true ->
  fst (attempt_once fn m s) = Reject timeout_error /\
  kind timeout_error = "Error" /\
  message timeout_error = Some "timeout" /\
  (forall e, e = timeout_error <->
             kind e = "Error" /\ message e = Some "timeout").
Proof.
  intros Hto. split; [| split; [reflexivity | split; [reflexivity |]]].
  - destruct m as [m |]; [| discriminate].
    now rewrite (attempt_once_timed_out fn m s Hto).
  - intros e. split.
    + intros ->. split; reflexivity.
    + destruct e as [| n | str | name msg]; cbn; intros [Hk Hm];
        try discriminate.
      inversion Hm. subst. reflexivity.
Qed.

Lemma timeout_error_is_plain_error_witness :
  fst (attempt_once never_settles (Some 50) init) = Reject timeout_error.
Proof.
  apply (timeout_error_is_plain_error never_settles (Some 50) init).
  reflexivity.
Defined.

(** C5, as stated, fails: an attempt that timed out and an operation that
    rejected with its own [new Error('timeout')] end the call in the same
    way, and an operation's [new Error('boom')] has the kind of the timeout
    error. *)
Lemma timeout_kind_counterexample :
  timed_out (Some 50) (never_settles 0%nat) = true /\
  timed_out None (always_fail (JError "Error" "timeout") 0%nat) = false /\
  fst (retry never_settles
         (Some (mkOptions (Some 0) None None None (Some 50)))) =
  fst (retry (always_fail (JError "Error" "timeout"))
         (Some (mkOptions (Some 0) None None None None))) /\
  fst (retry (always_fail (JError "Error" "boom"))
         (Some (mkOptions (Some 0) None None None None))) =
  Rethrown (JError "Error" "boom") /\
  kind (JError "Error" "boom") = kind timeout_error.
Proof. repeat split. Qed.

(** * Further properties of [retry] *)

(** ** An induction rule for the loop *)

Section Invariants.
Context {T : Type}.
Variable fn : nat -> promise T.
Variables (r : Z) (f : Q).
Variable cb : option callback.
Variable ms : option Z.

(** One premise per way out of an iteration of lines 27-36, and one for
    going round. *)
Lemma loop_rule (P : Z -> Z -> state -> exit T * state -> Prop) :
  (forall a d s, a > r -> P a d s (Fallback, s)) ->
  (forall a d s v s1,
      a <= r -> attempt_once fn ms s = (Fulfil v, s1) ->
      P a d s (Returned v, s1)) ->
  (forall a d s s1,
      a <= r -> attempt_once fn ms s = (Pending, s1) ->
      P a d s (Hung, s1)) ->
  (forall a d s e s1,
      a = r -> attempt_once fn ms s = (Reject e, s1) ->
      P a d s (Rethrown e, s1)) ->
  (forall a d s e s1 x s2,
      a < r -> attempt_once fn ms s = (Reject e, s1) ->
      call_onRetry cb e (a + 1) s1 = (Some x, s2) ->
      P a d s (CallbackThrew x, s2)) ->
  (forall a d s e s1 s2 res,
      a < r -> attempt_once fn ms s = (Reject e, s1) ->
      call_onRetry cb e (a + 1) s1 = (None, s2) ->
      P (a + 1) (next_delay f d) (sleep d s2) res ->
      P a d s res) ->
  forall a d s, P a d s (loop fn r f cb ms a d s).
Proof.
  intros Hfall Hret Hhang Hthrow Habort Hround a d s.
  remember (Z.to_nat (r - a + 1)) as n eqn:Hn.
  revert a d s Hn. induction n as [| n IH]; intros a d s Hn.
  - rewrite loop_exit by lia. apply Hfall. lia.
  - assert (a <= r) as Ha by lia.
    destruct (attempt_once fn ms s) as [[v | e |] s1] eqn:Hat.
    + rewrite (loop_return _ _ _ _ _ _ _ _ _ _ Ha Hat). now apply Hret.
    + destruct (Z.eq_dec a r) as [Heq | Hne].
      * rewrite (loop_rethrow _ _ _ _ _ _ _ _ _ _ Heq Hat). now apply Hthrow.
      * destruct (call_onRetry cb e (a + 1) s1) as [[x |] s2] eqn:Hcall.
        -- rewrite (loop_abort fn r f cb ms a d s e s1 x s2);
             [| lia | assumption | assumption].
           apply (Habort a d s e s1 x s2); [lia | assumption | assumption].
        -- rewrite (loop_again fn r f cb ms a d s e s1 s2);
             [| lia | assumption | assumption].
           apply (Hround a d s e s1 s2); [lia | assumption | assumption |].
           apply IH. lia.
    + rewrite (loop_hang _ _ _ _ _ _ _ _ _ Ha Hat). now apply Hhang.
Qed.

(** *** The state after an attempt, an observer call, a sleep *)

Lemma attempt_once_eq s o s1 :
  attempt_once fn ms s = (o, s1) ->
  o = attempt_result fn ms (calls s) /\
  calls s1 = S (calls s) /\
  trace s1 = trace s ++ EvCall (calls s) ::
               match ms with
               | Some m => [EvSetTimeout Race m]
               | None => []
               end.
Proof.
  intros H.
  pose proof (attempt_once_result fn ms s) as Ho.
  pose proof (attempt_once_calls fn ms s) as Hc.
  pose proof (attempt_once_trace fn ms s) as Ht.
  rewrite H in Ho, Hc, Ht. cbn in Ho, Hc, Ht. auto.
Qed.

Lemma call_onRetry_eq e n s y s2 :
  call_onRetry cb e n s = (y, s2) ->
  calls s2 = calls s /\ now s2 = now s /\ timers s2 = timers s /\
  next_tid s2 = next_tid s /\
  trace s2 = trace s ++ match cb with
                        | Some _ => [EvOnRetry e n]
                        | None => []
                        end /\
  y = match cb with
      | Some g => g e n
      | None => None
      end.
Proof.
  unfold call_onRetry. destruct cb; intros H; inversion H; subst; cbn;
    rewrite ?app_nil_r; repeat split.
Qed.

Lemma sleeps_attempt s o s1 :
  attempt_once fn ms s = (o, s1) -> sleeps (trace s1) = sleeps (trace s).
Proof.
  intros H. pose proof (attempt_once_sleeps fn ms s) as Hs.
  now rewrite H in Hs.
Qed.

Lemma sleeps_call_onRetry e n s y s2 :
  call_onRetry cb e n s = (y, s2) -> sleeps (trace s2) = sleeps (trace s).
Proof.
  intros H. pose proof (call_onRetry_sleeps cb e n s) as Hs.
  now rewrite H in Hs.
Qed.

Lemma sleeps_sleep d s : sleeps (trace (sleep d s)) = sleeps (trace s) ++ [d].
Proof. now rewrite sleep_trace, sleeps_app. Qed.

(** *** Attempts and sleeps are counted together *)

Lemma loop_counts a d s :
  a = Z.of_nat (calls s) ->
  (a > r -> snd (loop fn r f cb ms a d s) = s) /\
  (a <= r ->
   Z.of_nat (calls (snd (loop fn r f cb ms a d s))) <= r + 1 /\
   (length (sleeps (trace (snd (loop fn r f cb ms a d s)))) + S (calls s) =
    length (sleeps (trace s)) + calls (snd (loop fn r f cb ms a d s)))%nat).
Proof.
  revert a d s.
  apply (loop_rule (fun a d s res =>
    a = Z.of_nat (calls s) ->
    (a > r -> snd res = s) /\
    (a <= r ->
     Z.of_nat (calls (snd res)) <= r + 1 /\
     (length (sleeps (trace (snd res))) + S (calls s) =
      length (sleeps (trace s)) + calls (snd res))%nat))); cbn [snd].
  - intros a d s Ha Hs. split; [reflexivity | lia].
  - intros a d s v s1 Ha Hat Hs. split; [lia | intros _].
    destruct (attempt_once_eq _ _ _ Hat) as (_ & Hc & _).
    rewrite (sleeps_attempt _ _ _ Hat). lia.
  - intros a d s s1 Ha Hat Hs. split; [lia | intros _].
    destruct (attempt_once_eq _ _ _ Hat) as (_ & Hc & _).
    rewrite (sleeps_attempt _ _ _ Hat). lia.
  - intros a d s e s1 Ha Hat Hs. split; [lia | intros _].
    destruct (attempt_once_eq _ _ _ Hat) as (_ & Hc & _).
    rewrite (sleeps_attempt _ _ _ Hat). lia.
  - intros a d s e s1 x s2 Ha Hat Hcall Hs. split; [lia | intros _].
    destruct (attempt_once_eq _ _ _ Hat) as (_ & Hc & _).
    destruct (call_onRetry_eq _ _ _ _ _ Hcall) as (Hc2 & _).
    rewrite (sleeps_call_onRetry _ _ _ _ _ Hcall), (sleeps_attempt _ _ _ Hat).
    lia.
  - intros a d s e s1 s2 res Ha Hat Hcall IH Hs. split; [lia | intros _].
    destruct (attempt_once_eq _ _ _ Hat) as (_ & Hc & _).
    destruct (call_onRetry_eq _ _ _ _ _ Hcall) as (Hc2 & _).
    destruct IH as [_ IH]; [rewrite sleep_calls; lia |].
    destruct IH as [Hb Hl]; [lia |].
    rewrite sleeps_sleep, (sleeps_call_onRetry _ _ _ _ _ Hcall),
      (sleeps_attempt _ _ _ Hat), length_app, sleep_calls in Hl.
    cbn in Hl. split; [assumption | lia].
Qed.

End Invariants.

(** X1.  For a whole-number [retries], whatever the operation and the
    other options, [retry] invokes the factory at most [retries + 1] times
    (never, when [retries] is negative), and it sleeps exactly once
    between two consecutive invocations: one sleep less than there are
    invocations. *)
Theorem retry_attempts_bounded {T} (fn : nat -> promise T)
    (opts : option options) :
  Z.of_nat (calls (snd (retry fn opts))) <= Z.max 0 (retries_of opts + 1) /\
  length (sleeps (trace (snd (retry fn opts)))) =
  Nat.pred (calls (snd (retry fn opts))).
Proof.
  unfold retry.
  destruct (loop_counts fn (retries_of opts) (factor_of opts) (onRetry_of opts)
              (timeoutMs_of opts) 0 (delayMs_of opts) init eq_refl)
    as [Hout Hin].
  destruct (Z_le_gt_dec 0 (retries_of opts)) as [Hr | Hr].
  - destruct (Hin Hr) as [Hb Hl]. cbn in Hl. split; lia.
  - rewrite (Hout Hr). cbn. split; [lia | reflexivity].
Qed.

(** ** What each way out of [retry] tells *)

Section Exits.
Context {T : Type}.
Variable fn : nat -> promise T.
Variables (r : Z) (f : Q).
Variable cb : option callback.
Variable ms : option Z.

Lemma loop_exit_meaning a d s :
  a = Z.of_nat (calls s) ->
  match fst (loop fn r f cb ms a d s) with
  | Returned v =>
      attempt_result fn ms (Nat.pred (calls (snd (loop fn r f cb ms a d s))))
      = Fulfil v
  | Rethrown e =>
      Z.of_nat (calls (snd (loop fn r f cb ms a d s))) = r + 1 /\
      attempt_result fn ms (Z.to_nat r) = Reject e
  | CallbackThrew x =>
      exists g e,
        cb = Some g /\
        Z.of_nat (calls (snd (loop fn r f cb ms a d s))) <= r /\
        attempt_result fn ms (Nat.pred (calls (snd (loop fn r f cb ms a d s))))
        = Reject e /\
        g e (Z.of_nat (calls (snd (loop fn r f cb ms a d s)))) = Some x
  | Fallback => a > r
  | Hung =>
      attempt_result fn ms (Nat.pred (calls (snd (loop fn r f cb ms a d s))))
      = Pending
  end.
Proof.
  revert a d s.
  apply (loop_rule fn r f cb ms (fun a d s res =>
    a = Z.of_nat (calls s) ->
    match fst res with
    | Returned v => attempt_result fn ms (Nat.pred (calls (snd res))) = Fulfil v
    | Rethrown e =>
        Z.of_nat (calls (snd res)) = r + 1 /\
        attempt_result fn ms (Z.to_nat r) = Reject e
    | CallbackThrew x =>
        exists g e,
          cb = Some g /\ Z.of_nat (calls (snd res)) <= r /\
          attempt_result fn ms (Nat.pred (calls (snd res))) = Reject e /\
          g e (Z.of_nat (calls (snd res))) = Some x
    | Fallback => a > r
    | Hung => attempt_result fn ms (Nat.pred (calls (snd res))) = Pending
    end)); cbn [fst snd].
  - intros a d s Ha _. assumption.
  - intros a d s v s1 Ha Hat Hs.
    destruct (attempt_once_eq _ _ _ _ _ Hat) as (Ho & Hc & _).
    rewrite Hc. cbn. now symmetry.
  - intros a d s s1 Ha Hat Hs.
    destruct (attempt_once_eq _ _ _ _ _ Hat) as (Ho & Hc & _).
    rewrite Hc. cbn. now symmetry.
  - intros a d s e s1 Ha Hat Hs.
    destruct (attempt_once_eq _ _ _ _ _ Hat) as (Ho & Hc & _).
    rewrite Hc. split; [lia |].
    replace (Z.to_nat r) with (calls s) by lia. now symmetry.
  - intros a d s e s1 x s2 Ha Hat Hcall Hs.
    destruct (attempt_once_eq _ _ _ _ _ Hat) as (Ho & Hc & _).
    destruct (call_onRetry_eq _ _ _ _ _ _ Hcall) as (Hc2 & _ & _ & _ & _ & Hy).
    destruct cb as [g |]; [| discriminate].
    exists g, e. rewrite Hc2, Hc. cbn [Nat.pred].
    split; [reflexivity |]. split; [lia |]. split; [now symmetry |].
    replace (Z.of_nat (S (calls s))) with (a + 1) by lia. now symmetry.
  - intros a d s e s1 s2 res Ha Hat Hcall IH Hs.
    destruct (attempt_once_eq _ _ _ _ _ Hat) as (_ & Hc & _).
    destruct (call_onRetry_eq _ _ _ _ _ _ Hcall) as (Hc2 & _).
    assert (a + 1 = Z.of_nat (calls (sleep d s2))) as Hsync
        by (rewrite sleep_calls; lia).
    specialize (IH Hsync). destruct (fst res); try assumption. lia.
Qed.

(** Every invocation but the last one of the run has failed. *)
Lemma loop_earlier_failed a d s :
  forall i, (calls s <= i)%nat ->
            (S i < calls (snd (loop fn r f cb ms a d s)))%nat ->
            exists e, attempt_result fn ms i = Reject e.
Proof.
  revert a d s.
  apply (loop_rule fn r f cb ms (fun a d s res =>
    forall i, (calls s <= i)%nat -> (S i < calls (snd res))%nat ->
              exists e, attempt_result fn ms i = Reject e)); cbn [snd].
  - intros a d s _ i Hi Hlt. lia.
  - intros a d s v s1 _ Hat i Hi Hlt.
    destruct (attempt_once_eq _ _ _ _ _ Hat) as (_ & Hc & _). lia.
  - intros a d s s1 _ Hat i Hi Hlt.
    destruct (attempt_once_eq _ _ _ _ _ Hat) as (_ & Hc & _). lia.
  - intros a d s e s1 _ Hat i Hi Hlt.
    destruct (attempt_once_eq _ _ _ _ _ Hat) as (_ & Hc & _). lia.
  - intros a d s e s1 x s2 _ Hat Hcall i Hi Hlt.
    destruct (attempt_once_eq _ _ _ _ _ Hat) as (_ & Hc & _).
    destruct (call_onRetry_eq _ _ _ _ _ _ Hcall) as (Hc2 & _). lia.
  - intros a d s e s1 s2 res _ Hat Hcall IH i Hi Hlt.
    destruct (attempt_once_eq _ _ _ _ _ Hat) as (Ho & Hc & _).
    destruct (call_onRetry_eq _ _ _ _ _ _ Hcall) as (Hc2 & _).
    destruct (Nat.eq_dec i (calls s)) as [-> | Hne].
    + exists e. now symmetry.
    + apply IH; [rewrite sleep_calls; lia | assumption].
Qed.

(** The calls of the observer made from a point of the loop on. *)
Lemma loop_observer_calls a d s :
  a = Z.of_nat (calls s) -> a <= r ->
  exists n,
    observed (fst (loop fn r f cb ms a d s))
             (calls (snd (loop fn r f cb ms a d s))) = (calls s + n)%nat /\
    onRetry_calls (trace (snd (loop fn r f cb ms a d s))) =
    onRetry_calls (trace s) ++
      match cb with
      | Some _ => map (fun i => (caught fn ms i, Z.of_nat i + 1))
                      (seq (calls s) n)
      | None => []
      end.
Proof.
  revert a d s.
  apply (loop_rule fn r f cb ms (fun a d s res =>
    a = Z.of_nat (calls s) -> a <= r ->
    exists n,
      observed (fst res) (calls (snd res)) = (calls s + n)%nat /\
      onRetry_calls (trace (snd res)) =
      onRetry_calls (trace s) ++
        match cb with
        | Some _ => map (fun i => (caught fn ms i, Z.of_nat i + 1))
                        (seq (calls s) n)
        | None => []
        end)); cbn [fst snd observed].
  - intros a d s Ha _ Hle. lia.
  - intros a d s v s1 _ Hat _ _.
    destruct (attempt_once_eq _ _ _ _ _ Hat) as (_ & Hc & Ht).
    exists 0%nat. rewrite Hc, Ht, onRetry_calls_app. cbn [Nat.pred seq map].
    split; [lia |]. destruct ms, cb; reflexivity.
  - intros a d s s1 _ Hat _ _.
    destruct (attempt_once_eq _ _ _ _ _ Hat) as (_ & Hc & Ht).
    exists 0%nat. rewrite Hc, Ht, onRetry_calls_app. cbn [Nat.pred seq map].
    split; [lia |]. destruct ms, cb; reflexivity.
  - intros a d s e s1 _ Hat _ _.
    destruct (attempt_once_eq _ _ _ _ _ Hat) as (_ & Hc & Ht).
    exists 0%nat. rewrite Hc, Ht, onRetry_calls_app. cbn [Nat.pred seq map].
    split; [lia |]. destruct ms, cb; reflexivity.
  - intros a d s e s1 x s2 _ Hat Hcall Hs _.
    destruct (attempt_once_eq _ _ _ _ _ Hat) as (Ho & Hc & Ht).
    destruct (call_onRetry_eq _ _ _ _ _ _ Hcall) as (Hc2 & _ & _ & _ & Ht2 & Hy).
    exists 1%nat. rewrite Hc2, Hc, Ht2, Ht, !onRetry_calls_app.
    split; [lia |]. destruct cb as [g |]; [| discriminate].
    assert (caught fn ms (calls s) = e) as Hcaught
        by (unfold caught; now rewrite <- Ho).
    subst a. destruct ms; cbn; now rewrite ?app_nil_r, Hcaught.
  - intros a d s e s1 s2 res Hlt Hat Hcall IH Hs _.
    destruct (attempt_once_eq _ _ _ _ _ Hat) as (Ho & Hc & Ht).
    destruct (call_onRetry_eq _ _ _ _ _ _ Hcall) as (Hc2 & _ & _ & _ & Ht2 & _).
    destruct IH as (n & Hn & Hobs); [rewrite sleep_calls; lia | lia |].
    rewrite sleep_calls, Hc2, Hc in Hn.
    rewrite sleep_calls, Hc2, Hc, sleep_trace, Ht2, Ht,
      !onRetry_calls_app in Hobs.
    exists (S n). split; [lia |]. rewrite Hobs.
    assert (caught fn ms (calls s) = e) as Hcaught
        by (unfold caught; now rewrite <- Ho).
    subst a.
    destruct ms, cb; cbn; now rewrite ?app_nil_r, <- ?app_assoc, ?Hcaught.
Qed.

End Exits.

Lemma attempt_pending {T} (fn : nat -> promise T) (ms : option Z) (i : nat) :
  attempt_result fn ms i = Pending -> ms = None /\ fn i = None.
Proof.
  unfold attempt_result, bounded, race.
  destruct ms as [m |], (fn i) as [[d [v | e]] |]; cbn;
    try destruct (Z.max 0 d <=? Z.max 0 (timer_delay m)); cbn;
    try discriminate; auto.
Qed.

Lemma caught_failed {T} (fn : nat -> promise T) (ms : option Z) (i : nat) e :
  attempt_result fn ms i = Reject e ->
  attempt_result fn ms i = Reject (caught fn ms i).
Proof. intros H. unfold caught. now rewrite H. Qed.

(** X2.  What the way [retry] ends tells about the attempts, for a
    whole-number [retries].  A returned value is the value of the last
    invocation made; a rethrown error is the error of attempt
    [retries + 1], after exactly that many invocations; an error thrown by
    the observer comes from its call for the last failed attempt, which
    was not the final one; the call stays pending only when no timeout is
    set and the last promise made never settles; and line 39 is reached
    only when [retries] is negative. *)
Theorem retry_exit_meaning {T} (fn : nat -> promise T)
    (opts : option options) :
  match fst (retry fn opts) with
  | Returned v =>
      attempt_result fn (timeoutMs_of opts)
        (Nat.pred (calls (snd (retry fn opts)))) = Fulfil v
  | Rethrown e =>
      Z.of_nat (calls (snd (retry fn opts))) = retries_of opts + 1 /\
      attempt_result fn (timeoutMs_of opts) (Z.to_nat (retries_of opts))
      = Reject e
  | CallbackThrew x =>
      exists g e,
        onRetry_of opts = Some g /\
        Z.of_nat (calls (snd (retry fn opts))) <= retries_of opts /\
        attempt_result fn (timeoutMs_of opts)
          (Nat.pred (calls (snd (retry fn opts)))) = Reject e /\
        g e (Z.of_nat (calls (snd (retry fn opts)))) = Some x
  | Fallback => retries_of opts < 0
  | Hung =>
      timeoutMs_of opts = None /\
      fn (Nat.pred (calls (snd (retry fn opts)))) = None
  end.
Proof.
  unfold retry.
  pose proof (loop_exit_meaning fn (retries_of opts) (factor_of opts)
                (onRetry_of opts) (timeoutMs_of opts) 0 (delayMs_of opts)
                init eq_refl) as H.
  destruct (fst (loop fn (retries_of opts) (factor_of opts) (onRetry_of opts)
                   (timeoutMs_of opts) 0 (delayMs_of opts) init));
    try assumption.
  - lia.
  - now apply attempt_pending.
Qed.

(** X3.  [retry] stops at the first attempt that does not fail: every
    invocation before the last one of a run ended in a failed attempt. *)
Theorem retry_earlier_attempts_failed {T} (fn : nat -> promise T)
    (opts : option options) (i : nat) :
  (S i < calls (snd (retry fn opts)))%nat ->
  exists e, attempt_result fn (timeoutMs_of opts) i = Reject e.
Proof.
  intros Hi. unfold retry in Hi.
  apply (loop_earlier_failed fn (retries_of opts) (factor_of opts)
           (onRetry_of opts) (timeoutMs_of opts) 0 (delayMs_of opts) init);
    [cbn; lia | assumption].
Qed.

Lemma retry_earlier_attempts_failed_witness :
  exists e, attempt_result (fail_then_ok 2) (Some 50) 1 = Reject e.
Proof.
  apply (retry_earlier_attempts_failed (fail_then_ok 2)
           (Some (mkOptions (Some 5) None None None (Some 50))) 1).
  vm_compute. lia.
Defined.

(** X4.  The calls of a given [onRetry], in any run with a whole-number
    [retries]: one after each failed attempt except the last failure that
    ends the run, in order, the [i]-th with the error caught from the
    [i]-th attempt and the number [i]; at most [retries] of them.  Without
    [onRetry] there is none. *)
Theorem retry_observer_calls {T} (fn : nat -> promise T)
    (opts : option options) :
  onRetry_calls (trace (snd (retry fn opts))) =
  match onRetry_of opts with
  | Some _ =>
      map (fun i => (caught fn (timeoutMs_of opts) i, Z.of_nat i + 1))
          (seq 0 (observed (fst (retry fn opts))
                           (calls (snd (retry fn opts)))))
  | None => []
  end /\
  (forall i,
      (i < observed (fst (retry fn opts)) (calls (snd (retry fn opts))))%nat ->
      attempt_result fn (timeoutMs_of opts) i =
      Reject (caught fn (timeoutMs_of opts) i)) /\
  Z.of_nat (observed (fst (retry fn opts)) (calls (snd (retry fn opts))))
  <= Z.max 0 (retries_of opts).
Proof.
  unfold retry.
  pose proof (loop_exit_meaning fn (retries_of opts) (factor_of opts)
                (onRetry_of opts) (timeoutMs_of opts) 0 (delayMs_of opts)
                init eq_refl) as Hexit.
  pose proof (loop_counts fn (retries_of opts) (factor_of opts)
                (onRetry_of opts) (timeoutMs_of opts) 0 (delayMs_of opts)
                init eq_refl) as [Hout Hin].
  pose proof (loop_earlier_failed fn (retries_of opts) (factor_of opts)
                (onRetry_of opts) (timeoutMs_of opts) 0 (delayMs_of opts)
                init) as Hearlier.
  destruct (Z_le_gt_dec 0 (retries_of opts)) as [Hr | Hr].
  - destruct (loop_observer_calls fn (retries_of opts) (factor_of opts)
                (onRetry_of opts) (timeoutMs_of opts) 0 (delayMs_of opts)
                init eq_refl Hr) as (n & Hn & Hobs).
    destruct (Hin Hr) as [Hb _]. clear Hout Hin.
    set (res := loop fn (retries_of opts) (factor_of opts) (onRetry_of opts)
                  (timeoutMs_of opts) 0 (delayMs_of opts) init) in *.
    cbn in Hn, Hobs. split; [| split].
    + rewrite Hobs, Hn. reflexivity.
    + intros i Hi.
      destruct (Nat.eq_dec (S i) (calls (snd res))) as [Heq | Hne].
      * destruct (fst res); cbn in Hi; try lia.
        destruct Hexit as (g & e' & _ & _ & He & _).
        rewrite <- Heq in He. cbn in He.
        now apply caught_failed with (e := e').
      * destruct (Hearlier i) as [e He];
          [cbn; lia | destruct (fst res); cbn in Hi; lia |].
        now apply caught_failed with (e := e).
    + destruct (fst res); cbn [observed]; try lia.
      destruct Hexit as (g & e' & _ & Hle & _). lia.
  - rewrite loop_exit by lia. cbn. split; [| split]; try lia.
    now destruct (onRetry_of opts).
Qed.

(** X5.  With [timeoutMs] set no attempt stays pending: each attempt ends
    with a value or with an error, an attempt whose operation never
    settles ends with the timeout error, and so a call never ends waiting
    on an attempt. *)
Theorem retry_attempts_settle_with_timeout {T} (fn : nat -> promise T)
    (opts : option options) (m : Z) :
  timeoutMs_of opts = Some m ->
  (forall i, attempt_result fn (timeoutMs_of opts) i <> Pending) /\
  (forall i, fn i = None ->
             attempt_result fn (timeoutMs_of opts) i = Reject timeout_error) /\
  fst (retry fn opts) <> Hung.
Proof.
  intros Hm.
  assert (forall i, attempt_result fn (timeoutMs_of opts) i <> Pending) as Hset.
  { intros i Hp. apply attempt_pending in Hp. destruct Hp as [Hnone _].
    congruence. }
  split; [assumption |]. split.
  - intros i Hfn. rewrite Hm. apply attempt_result_timed_out.
    unfold timed_out. now rewrite Hfn.
  - unfold retry. intros Hhung.
    pose proof (loop_exit_meaning fn (retries_of opts) (factor_of opts)
                  (onRetry_of opts) (timeoutMs_of opts) 0 (delayMs_of opts)
                  init eq_refl) as Hexit.
    rewrite Hhung in Hexit. now apply Hset in Hexit.
Qed.

Lemma retry_attempts_settle_with_timeout_witness :
  attempt_result never_settles (Some 50) 0 = Reject timeout_error /\
  fst (retry never_settles
         (Some (mkOptions (Some 1) None None None (Some 50)))) <> Hung.
Proof.
  destruct (retry_attempts_settle_with_timeout never_settles
              (Some (mkOptions (Some 1) None None None (Some 50))) 50)
    as (_ & Hto & Hnot); [reflexivity |].
  split; [apply Hto; reflexivity | exact Hnot].
Defined.

(** ** Clock and timer table *)

Lemma in_advance t s tm :
  In tm (timers (advance t s)) <-> In tm (timers s) /\ t <= due tm.
Proof. cbn. rewrite filter_In, Z.leb_le. reflexivity. Qed.

Lemma in_fired i s tm :
  In tm (timers (fired (Some i) s)) <-> In tm (timers s) /\ tid tm <> i.
Proof.
  cbn. rewrite filter_In, negb_true_iff, Nat.eqb_neq. reflexivity.
Qed.

(** The clock moves to [t] and the timer [id], if one is named, fires. *)
Lemma resumed_table id t s tm :
  In tm (timers (fired id (advance t s))) <->
  In tm (timers s) /\ t <= due tm /\
  match id with
  | Some i => tid tm <> i
  | None => True
  end.
Proof.
  destruct id as [i |].
  - rewrite in_fired, in_advance. tauto.
  - cbn [fired]. rewrite in_advance. tauto.
Qed.

Lemma resumed_length id t s :
  (length (timers (fired id (advance t s))) <= length (timers s))%nat.
Proof.
  destruct id as [i |]; cbn.
  - etransitivity; apply filter_length_le.
  - apply filter_length_le.
Qed.

Lemma resumed_fields id t s :
  now (fired id (advance t s)) = t /\
  next_tid (fired id (advance t s)) = next_tid s /\
  calls (fired id (advance t s)) = calls s /\
  trace (fired id (advance t s)) = trace s.
Proof. destruct id; repeat split. Qed.

Section Clock.
Context {T : Type}.
Variable fn : nat -> promise T.
Variables (r : Z) (f : Q).
Variable cb : option callback.
Variable ms : option Z.

Lemma waiting_fields s :
  now (waiting fn ms s) = now s /\
  timers (waiting fn ms s) =
  timers s ++ match ms with
              | Some m => [mkTimer (next_tid s) Race (now s + timer_delay m)]
              | None => []
              end /\
  next_tid (waiting fn ms s) =
  match ms with
  | Some _ => S (next_tid s)
  | None => next_tid s
  end.
Proof.
  unfold waiting, withTimeout, call_fn.
  destruct ms; cbn; rewrite ?app_nil_r; repeat split.
Qed.

(** An attempt either stays pending, which takes no timeout, or resumes at
    some later instant, its timer having fired or not. *)
Lemma attempt_once_shape s o s1 :
  attempt_once fn ms s = (o, s1) ->
  (o = Pending /\ ms = None /\ s1 = waiting fn ms s) \/
  (exists t id,
      now s <= t /\
      (forall m, ms = Some m -> t <= now s + timer_delay m) /\
      (id = None \/ id = Some (next_tid s)) /\
      s1 = fired id (advance t (waiting fn ms s))).
Proof.
  unfold waiting, attempt_once, withTimeout, call_fn.
  destruct ms as [m |]; cbn -[race overtakes await].
  - rewrite overtakes_timer. unfold race, await.
    destruct (timed_out (Some m) (fn (calls s))) eqn:Hto.
    + intros Hat. right.
      exists (now s + timer_delay m), (Some (next_tid s)).
      pose proof (timer_delay_pos m).
      split; [lia |]. split; [intros m' Hm'; injection Hm' as <-; lia |].
      split; [now right |].
      unfold timed_out in Hto.
      destruct (fn (calls s)) as [[d x] |].
      * apply negb_true_iff in Hto.
        rewrite timer_delay_max, Hto, timer_delay_max in Hat.
        now inversion Hat.
      * rewrite timer_delay_max in Hat. now inversion Hat.
    + intros Hat. right. unfold timed_out in Hto.
      destruct (fn (calls s)) as [[d x] |]; [| discriminate].
      apply negb_false_iff in Hto. rewrite timer_delay_max, Hto in Hat.
      apply Z.leb_le in Hto.
      exists (now s + Z.max 0 d), None.
      split; [lia |]. split; [intros m' Hm'; injection Hm' as <-; lia |].
      split; [now left |].
      destruct x; now inversion Hat.
  - unfold await. destruct (fn (calls s)) as [[d x] |].
    + intros Hat. right. exists (now s + Z.max 0 d), None.
      split; [lia |]. split; [discriminate |]. split; [now left |].
      destruct x; now inversion Hat.
    + intros Hat. left. now inversion Hat.
Qed.

Lemma attempt_once_table s o s1 :
  attempt_once fn ms s = (o, s1) ->
  now s <= now s1 /\
  (forall m, ms = Some m -> now s1 <= now s + timer_delay m) /\
  (handles_fresh s -> handles_fresh s1) /\
  (table_ok s -> table_ok s1) /\
  (ms = None -> timers s = [] -> timers s1 = []) /\
  (length (timers s1) <= S (length (timers s)))%nat /\
  (forall tm, handles_fresh s -> In tm (timers s) -> now s1 <= due tm ->
              In tm (timers s1)).
Proof.
  intros Hat. destruct (waiting_fields s) as (Hwn & Hwt & Hwi).
  destruct (attempt_once_shape s o s1 Hat)
    as [(_ & Hms & ->) | (t & id & Ht & Hup & Hid & ->)].
  - rewrite Hms in *. rewrite app_nil_r in Hwt.
    split; [lia |]. split; [discriminate |].
    split; [intros Hf tm Hin; rewrite Hwt in Hin; rewrite Hwi; now apply Hf |].
    split; [intros Hok tm Hin; rewrite Hwt in Hin; rewrite Hwn; now apply Hok |].
    split; [intros _ Hnil; now rewrite Hwt |].
    split; [rewrite Hwt; lia |].
    intros tm _ Hin _. now rewrite Hwt.
  - destruct (resumed_fields id t (waiting fn ms s)) as (Hn & Hi & _ & _).
    rewrite Hn. split; [assumption |]. split; [assumption |].
    split; [| split; [| split; [| split]]].
    + intros Hf tm Hin. apply resumed_table in Hin.
      destruct Hin as (Hin & _ & _). rewrite Hi, Hwi. rewrite Hwt in Hin.
      apply in_app_or in Hin. destruct Hin as [Hin | Hin].
      * specialize (Hf tm Hin). destruct ms; lia.
      * destruct ms; [| destruct Hin].
        destruct Hin as [<- | []]. cbn. lia.
    + intros Hok tm Hin. apply resumed_table in Hin.
      destruct Hin as (Hin & Hdue & _). rewrite Hn. split; [| assumption].
      rewrite Hwt in Hin. apply in_app_or in Hin. destruct Hin as [Hin | Hin].
      * now apply Hok.
      * destruct ms; [| destruct Hin]. now destruct Hin as [<- | []].
    + intros Hms Hnil.
      assert (timers (waiting fn ms s) = []) as Hw
          by (rewrite Hwt, Hnil, Hms; reflexivity).
      destruct id; cbn; now rewrite Hw.
    + etransitivity; [apply resumed_length |].
      rewrite Hwt, length_app. destruct ms; cbn; lia.
    + intros tm Hf Hin Hdue. apply resumed_table.
      split; [rewrite Hwt; apply in_or_app; now left |].
      split; [assumption |].
      destruct Hid as [-> | ->]; [exact I |].
      specialize (Hf tm Hin). lia.
Qed.

Lemma sleep_table d s :
  now (sleep d s) = now s + timer_delay d /\
  (handles_fresh s -> handles_fresh (sleep d s)) /\
  (handles_fresh s -> table_ok s -> table_ok (sleep d s)) /\
  (timers s = [] -> timers (sleep d s) = []) /\
  (length (timers (sleep d s)) <= length (timers s))%nat /\
  (forall tm, handles_fresh s -> In tm (timers s) ->
              now (sleep d s) <= due tm -> In tm (timers (sleep d s))).
Proof.
  assert (sleep d s =
          fired (Some (next_tid s))
                (advance (now s + timer_delay d)
                         (snd (setTimeout Backoff d s)))) as Heq.
  { unfold sleep. cbn. now rewrite timer_delay_max. }
  rewrite Heq.
  set (s2 := snd (setTimeout Backoff d s)).
  assert (timers s2 =
          timers s ++ [mkTimer (next_tid s) Backoff (now s + timer_delay d)])
    as Ht2 by reflexivity.
  destruct (resumed_fields (Some (next_tid s)) (now s + timer_delay d) s2)
    as (Hn & Hi & _ & _).
  assert (forall tm,
             In tm (timers (fired (Some (next_tid s))
                              (advance (now s + timer_delay d) s2))) ->
             In tm (timers s) /\ now s + timer_delay d <= due tm) as Hsub.
  { intros tm Hin. apply resumed_table in Hin.
    destruct Hin as (Hin & Hdue & Hne). split; [| assumption].
    rewrite Ht2 in Hin. apply in_app_or in Hin.
    destruct Hin as [Hin | [<- | []]]; [assumption |]. now cbn in Hne. }
  rewrite Hn. split; [reflexivity |].
  split; [| split; [| split; [| split]]].
  - intros Hf tm Hin. apply Hsub in Hin. destruct Hin as [Hin _].
    specialize (Hf tm Hin). rewrite Hi. cbn. lia.
  - intros Hf Hok tm Hin. apply Hsub in Hin. destruct Hin as [Hin Hdue].
    rewrite Hn. split; [now apply Hok | assumption].
  - intros Hnil.
    destruct (timers (fired (Some (next_tid s))
                        (advance (now s + timer_delay d) s2)))
      as [| tm l] eqn:Hl; [reflexivity |].
    destruct (Hsub tm) as [Hin _]; [now left |]. rewrite Hnil in Hin.
    destruct Hin.
  - cbn. rewrite filter_app, !filter_app, length_app. cbn.
    rewrite Z.leb_refl. cbn. rewrite Nat.eqb_refl. cbn.
    rewrite Nat.add_0_r.
    etransitivity; apply filter_length_le.
  - intros tm Hf Hin Hdue. apply resumed_table.
    split; [rewrite Ht2; apply in_or_app; now left |].
    split; [assumption |]. specialize (Hf tm Hin). lia.
Qed.

Lemma loop_table a d s :
  handles_fresh s -> table_ok s ->
  now s <= now (snd (loop fn r f cb ms a d s)) /\
  handles_fresh (snd (loop fn r f cb ms a d s)) /\
  table_ok (snd (loop fn r f cb ms a d s)) /\
  (ms = None -> timers s = [] -> timers (snd (loop fn r f cb ms a d s)) = []) /\
  (length (timers (snd (loop fn r f cb ms a d s))) + calls s <=
   length (timers s) + calls (snd (loop fn r f cb ms a d s)))%nat /\
  (forall tm, In tm (timers s) ->
              now (snd (loop fn r f cb ms a d s)) <= due tm ->
              In tm (timers (snd (loop fn r f cb ms a d s)))).
Proof.
  revert a d s.
  apply (loop_rule fn r f cb ms (fun a d s res =>
    handles_fresh s -> table_ok s ->
    now s <= now (snd res) /\
    handles_fresh (snd res) /\
    table_ok (snd res) /\
    (ms = None -> timers s = [] -> timers (snd res) = []) /\
    (length (timers (snd res)) + calls s <=
     length (timers s) + calls (snd res))%nat /\
    (forall tm, In tm (timers s) -> now (snd res) <= due tm ->
                In tm (timers (snd res))))); cbn [snd].
  - intros a d s _ Hf Hok.
    split; [lia | split; [assumption | split; [assumption |]]].
    split; [auto | split; [lia | auto]].
  - intros a d s v s1 _ Hat Hf Hok.
    destruct (attempt_once_table _ _ _ Hat) as (Hn & _ & Hf1 & Hok1 & He & Hl & Hk).
    destruct (attempt_once_eq _ _ _ _ _ Hat) as (_ & Hc & _).
    split; [lia | split; [auto | split; [auto |]]].
    split; [auto | split; [lia | auto]].
  - intros a d s s1 _ Hat Hf Hok.
    destruct (attempt_once_table _ _ _ Hat) as (Hn & _ & Hf1 & Hok1 & He & Hl & Hk).
    destruct (attempt_once_eq _ _ _ _ _ Hat) as (_ & Hc & _).
    split; [lia | split; [auto | split; [auto |]]].
    split; [auto | split; [lia | auto]].
  - intros a d s e s1 _ Hat Hf Hok.
    destruct (attempt_once_table _ _ _ Hat) as (Hn & _ & Hf1 & Hok1 & He & Hl & Hk).
    destruct (attempt_once_eq _ _ _ _ _ Hat) as (_ & Hc & _).
    split; [lia | split; [auto | split; [auto |]]].
    split; [auto | split; [lia | auto]].
  - intros a d s e s1 x s2 _ Hat Hcall Hf Hok.
    destruct (attempt_once_table _ _ _ Hat) as (Hn & _ & Hf1 & Hok1 & He & Hl & Hk).
    destruct (attempt_once_eq _ _ _ _ _ Hat) as (_ & Hc & _).
    destruct (call_onRetry_eq _ _ _ _ _ _ Hcall)
      as (Hc2 & Hn2 & Ht2 & Hi2 & _ & _).
    rewrite Hn2, Ht2, Hc2.
    split; [lia |]. split.
    { intros tm Hin. rewrite Ht2 in Hin. rewrite Hi2. now apply Hf1. }
    split.
    { intros tm Hin. rewrite Ht2 in Hin. rewrite Hn2. now apply Hok1. }
    split; [auto | split; [lia | auto]].
  - intros a d s e s1 s2 res _ Hat Hcall IH Hf Hok.
    destruct (attempt_once_table _ _ _ Hat) as (Hn & _ & Hf1 & Hok1 & He & Hl & Hk).
    destruct (attempt_once_eq _ _ _ _ _ Hat) as (_ & Hc & _).
    destruct (call_onRetry_eq _ _ _ _ _ _ Hcall)
      as (Hc2 & Hn2 & Ht2 & Hi2 & _ & _).
    assert (handles_fresh s2) as Hf2.
    { intros tm Hin. rewrite Ht2 in Hin. rewrite Hi2. now apply Hf1. }
    assert (table_ok s2) as Hok2.
    { intros tm Hin. rewrite Ht2 in Hin. rewrite Hn2. now apply Hok1. }
    destruct (sleep_table d s2) as (Hsn & Hsf & Hsok & Hse & Hsl & Hsk).
    destruct IH as (IHn & IHf & IHok & IHe & IHl & IHk); [auto | auto |].
    rewrite sleep_calls, Hc2, Hc in IHl. rewrite Ht2 in Hsl, Hse.
    rewrite Hsn, Hn2 in IHn. pose proof (timer_delay_pos d) as Hpos.
    split; [lia |]. split; [assumption |]. split; [assumption |].
    split; [| split; [lia |]].
    + intros Hms Hnil. apply IHe; [assumption |]. apply Hse. now apply He.
    + intros tm Hin Hdue. apply IHk; [| assumption].
      apply Hsk; [assumption | | rewrite Hsn, Hn2; lia].
      rewrite Ht2. apply Hk; [assumption | assumption | lia].
Qed.


End Clock.




(** X6.  When [retry] is over, no timer created by [sleep] is left in the
    timer table: the timers still scheduled are timers of timeout races
    only, none due before the final instant, at most one per invocation of
    the factory; and without [timeoutMs] the table is empty. *)
Theorem retry_leaves_only_race_timers {T} (fn : nat -> promise T)
    (opts : option options) :
  (forall tm, In tm (timers (snd (retry fn opts))) ->
              tkind tm = Race /\ now (snd (retry fn opts)) <= due tm) /\
  (length (timers (snd (retry fn opts))) <= calls (snd (retry fn opts)))%nat /\
  (timeoutMs_of opts = None -> timers (snd (retry fn opts)) = []).
Proof.
  unfold retry.
  destruct (loop_table fn (retries_of opts) (factor_of opts) (onRetry_of opts)
              (timeoutMs_of opts) 0 (delayMs_of opts) init)
    as (_ & _ & Hok & He & Hl & _).
  - intros tm [].
  - intros tm [].
  - split; [exact Hok |]. split; [cbn in Hl; lia |].
    intros Hms. now apply He.
Qed.
(** ** What the outcome depends on *)

Section SameOutcome.
Context {T : Type}.
Variables fn fn' : nat -> promise T.
Variable r : Z.
Variables f f' : Q.
Variable cb : option callback.
Variables ms ms' : option Z.
Hypothesis agree :
  forall i, attempt_result fn' ms' i = attempt_result fn ms i.



End SameOutcome.



(** ** Bounds on the backoff delays *)

Section Bounds.
Variable f : Q.

Lemma next_delay_nonneg d : (0 <= f)%Q -> 0 <= d -> 0 <= next_delay f d.
Proof.
  intros Hf Hd. unfold next_delay.
  change 0 with (Qfloor 0). apply Qfloor_resp_le.
  apply Qmult_le_0_compat; [| assumption].
  change 0%Q with (inject_Z 0). now rewrite <- Zle_Qle.
Qed.

Lemma backoff_nonneg d n : (0 <= f)%Q -> 0 <= d -> 0 <= backoff f d n.
Proof.
  intros Hf Hd. induction n as [| n IH]; cbn; [assumption |].
  now apply next_delay_nonneg.
Qed.

Lemma next_delay_grows d : (1 <= f)%Q -> 0 <= d -> d <= next_delay f d.
Proof.
  intros Hf Hd. unfold next_delay.
  rewrite <- (Qfloor_Z d) at 1. apply Qfloor_resp_le.
  assert (1 * inject_Z d <= f * inject_Z d)%Q as H.
  { apply Qmult_le_compat_r; [assumption |].
    change 0%Q with (inject_Z 0). now rewrite <- Zle_Qle. }
  rewrite Qmult_1_l in H. now rewrite (Qmult_comm (inject_Z d) f).
Qed.

Lemma next_delay_shrinks d : (f <= 1)%Q -> 0 <= d -> next_delay f d <= d.
Proof.
  intros Hf Hd. unfold next_delay.
  rewrite <- (Qfloor_Z d) at 2. apply Qfloor_resp_le.
  assert (f * inject_Z d <= 1 * inject_Z d)%Q as H.
  { apply Qmult_le_compat_r; [assumption |].
    change 0%Q with (inject_Z 0). now rewrite <- Zle_Qle. }
  rewrite Qmult_1_l in H. now rewrite (Qmult_comm (inject_Z d) f).
Qed.

End Bounds.

Lemma retry_sleeps_nth {T} (fn : nat -> promise T) (opts : option options)
    (i : nat) (d : Z) :
  nth_error (sleeps (trace (snd (retry fn opts)))) i = Some d ->
  d = backoff (factor_of opts) (delayMs_of opts) i.
Proof.
  unfold retry. intros Hnth.
  destruct (loop_sleeps fn (retries_of opts) (factor_of opts) (onRetry_of opts)
              (timeoutMs_of opts) _ 0 (delayMs_of opts) init eq_refl)
    as [k Hk].
  rewrite Hk in Hnth. cbn [init trace sleeps flat_map app] in Hnth.
  destruct (Nat.lt_ge_cases i k) as [Hlt | Hge].
  - rewrite nth_error_map, nth_error_seq in Hnth.
    destruct (i <? k)%nat eqn:Hik; [| apply Nat.ltb_ge in Hik; lia].
    cbn in Hnth. congruence.
  - assert (nth_error (map (backoff (factor_of opts) (delayMs_of opts))
                         (seq 0 k)) i = None) as Hnone.
    { apply nth_error_None. rewrite length_map, length_seq. assumption. }
    congruence.
Qed.

(** X11.  With a whole-number [delayMs >= 0] and [factor >= 0] no delay
    slept is negative; from one retry to the next the delay does not
    shrink when [factor >= 1] and does not grow when [factor <= 1]. *)
Theorem retry_delays_monotone {T} (fn : nat -> promise T)
    (opts : option options) (i : nat) (d : Z) :
  0 <= delayMs_of opts ->
  (0 <= factor_of opts)%Q ->
  nth_error (sleeps (trace (snd (retry fn opts)))) i = Some d ->
  0 <= d /\
  (forall d', nth_error (sleeps (trace (snd (retry fn opts)))) (S i) = Some d' ->
              ((1 <= factor_of opts)%Q -> d <= d') /\
              ((factor_of opts <= 1)%Q -> d' <= d)).
Proof.
  intros Hd Hf Hnth. rewrite (retry_sleeps_nth fn opts i d Hnth).
  pose proof (backoff_nonneg (factor_of opts) (delayMs_of opts) i Hf Hd) as Hn.
  split; [assumption |]. intros d' Hnth'.
  rewrite (retry_sleeps_nth fn opts (S i) d' Hnth'). cbn [backoff].
  split; intros Hf1;
    [now apply next_delay_grows | now apply next_delay_shrinks].
Qed.

Lemma retry_delays_monotone_witness :
  0 <= 10 /\
  (forall d', nth_error (sleeps (trace (snd
                 (retry (always_fail (JString "E"))
                    (Some (mkOptions (Some 2) (Some 10) (Some (2 # 1))
                             None None)))))) 1 = Some d' ->
              ((1 <= 2 # 1)%Q -> 10 <= d') /\ ((2 # 1 <= 1)%Q -> d' <= 10)).
Proof.
  apply (retry_delays_monotone (always_fail (JString "E"))
           (Some (mkOptions (Some 2) (Some 10) (Some (2 # 1)) None None)) 0 10).
  - vm_compute. discriminate.
  - vm_compute. discriminate.
  - reflexivity.
Defined.

